(** * Katie Study Bot: quiz session engine and CSV bank parser

    A shallow embedding of [src/index.js].  JavaScript strings are modelled
    as [string] (ASCII text: the case and whitespace functions below are the
    ASCII restrictions of [toLowerCase], [toUpperCase] and [trim]); numbers
    that the code keeps integral are [Z] or [nat]; arrays are lists; the
    insertion-ordered [Map] of a scoreboard is an association list, the
    other Maps, whose order no handler observes here, are [gmap]s. *)

From Stdlib Require Import ZArith String Ascii List Lia Permutation Sorted.
From stdpp Require Import base strings gmap list pretty.

Open Scope string_scope.
Open Scope Z_scope.

(** ** JavaScript string and array primitives *)
Module Js.

(** Whitespace removed by [String.prototype.trim] and matched by [\s]. *)
Definition is_ws (c : ascii) : bool :=
  let n := nat_of_ascii c in
  ((9 <=? n)%nat && (n <=? 13)%nat) || (n =? 32)%nat.

Definition is_upper (c : ascii) : bool :=
  let n := nat_of_ascii c in (65 <=? n)%nat && (n <=? 90)%nat.

Definition is_lower (c : ascii) : bool :=
  let n := nat_of_ascii c in (97 <=? n)%nat && (n <=? 122)%nat.

Definition is_digit (c : ascii) : bool :=
  let n := nat_of_ascii c in (48 <=? n)%nat && (n <=? 57)%nat.

Definition lower_char (c : ascii) : ascii :=
  if is_upper c then ascii_of_nat (nat_of_ascii c + 32) else c.

Definition upper_char (c : ascii) : ascii :=
  if is_lower c then ascii_of_nat (nat_of_ascii c - 32) else c.

Fixpoint map_chars (f : ascii -> ascii) (s : string) : string :=
  match s with
  | EmptyString => EmptyString
  | String c s' => String (f c) (map_chars f s')
  end.

Definition toLowerCase : string -> string := map_chars lower_char.
Definition toUpperCase : string -> string := map_chars upper_char.

Fixpoint trimStart (s : string) : string :=
  match s with
  | String c s' => if is_ws c then trimStart s' else s
  | EmptyString => EmptyString
  end.

Fixpoint trimEnd (s : string) : string :=
  match s with
  | EmptyString => EmptyString
  | String c s' =>
      match trimEnd s' with
      | EmptyString => if is_ws c then EmptyString else String c EmptyString
      | r => String c r
      end
  end.

Definition trim (s : string) : string := trimEnd (trimStart s).

(** Truthiness of a string: [Boolean(s)], [!s]. *)
Definition truthy (s : string) : bool :=
  match s with EmptyString => false | _ => true end.

(** [s.includes(sub)] *)
Fixpoint includes (sub s : string) : bool :=
  String.prefix sub s ||
  match s with
  | EmptyString => false
  | String _ s' => includes sub s'
  end.

(** [s.split(sep)] for a non-empty separator: the non-overlapping
    occurrences of [sep], found from the left, cut the string.  [skip]
    counts the characters of a found separator still to be passed; the
    result is the piece being read and the pieces after it. *)
Fixpoint split_go (sep s : string) (skip : nat) : string * list string :=
  match s with
  | EmptyString => (EmptyString, [])
  | String c s' =>
      match skip with
      | S k => split_go sep s' k
      | O =>
          if String.prefix sep s
          then (EmptyString,
                let r := split_go sep s' (String.length sep - 1) in r.1 :: r.2)
          else let r := split_go sep s' 0 in (String c r.1, r.2)
      end
  end.

Definition split (sep s : string) : list string :=
  let r := split_go sep s 0 in r.1 :: r.2.

(** [s.split(/re/)] where the expression matches exactly one character of
    the class [p] (as [/;|,|\|/] does). *)
Fixpoint split_class_go (p : ascii -> bool) (s : string) : string * list string :=
  match s with
  | EmptyString => (EmptyString, [])
  | String c s' =>
      let r := split_class_go p s' in
      if p c then (EmptyString, r.1 :: r.2) else (String c r.1, r.2)
  end.

Definition split_class (p : ascii -> bool) (s : string) : list string :=
  let r := split_class_go p s in r.1 :: r.2.

(** [s.replace(/c/g, d)] for single characters. *)
Definition replace_char (c d : ascii) : string -> string :=
  map_chars (fun x => if Ascii.eqb x c then d else x).

(** [arr.join(sep)] *)
Definition join (sep : string) (l : list string) : string := String.concat sep l.

(** [arr.slice(0, n)] for [0 <= n]. *)
Definition slice0 {A} (n : nat) (l : list A) : list A := firstn n l.

(** [arr.findIndex(p)], [-1] when nothing satisfies [p]. *)
Fixpoint findIndex_from {A} (p : A -> bool) (l : list A) (i : Z) : Z :=
  match l with
  | [] => -1
  | x :: l' => if p x then i else findIndex_from p l' (i + 1)
  end.

Definition findIndex {A} (p : A -> bool) (l : list A) : Z := findIndex_from p l 0.

(** The value of a string of decimal digits, as [parseInt(s, 10)] reads it. *)
Fixpoint digits_value (s : string) (acc : Z) : Z :=
  match s with
  | EmptyString => acc
  | String c s' => digits_value s' (10 * acc + Z.of_nat (nat_of_ascii c - 48))
  end.

Fixpoint all_chars (p : ascii -> bool) (s : string) : bool :=
  match s with
  | EmptyString => true
  | String c s' => p c && all_chars p s'
  end.

(** What a call leaves: a value, or a thrown [Error] with its message. *)
Inductive Outcome (A : Type) : Type :=
| Returned (a : A)
| Thrown (message : string).
Arguments Returned {A} a.
Arguments Thrown {A} message.

End Js.

(** ** Question banks and their validator *)

Record Question := mkQuestion {
  q : string;
  type : string;
  options : list string;
  answerIdx : list Z;
  rationale : string
}.

#[global] Instance Question_eq_dec : EqDecision Question.
Proof. solve_decision. Defined.

Definition push_if (c : bool) (issue : string) (issues : list string) : list string :=
  if c then issues ++ [issue] else issues.

Definition out_of_range (x : Question) (i : Z) : bool :=
  (i <? 0) || (Z.of_nat (length (options x)) <=? i).

(** [validateQuestion(q)]: the five checks, each pushing its issue. *)
Definition validateQuestion (x : Question) : list string :=
  let issues := [] in
  let issues := push_if (negb (Js.truthy (q x))) "missing prompt" issues in
  let issues := push_if (length (options x) <? 2)%nat "needs ≥2 options" issues in
  let issues := push_if (25 <? length (options x))%nat "≤25 options supported" issues in
  let issues := push_if (bool_decide (answerIdx x = [])) "missing answer(s)" issues in
  let issues := push_if (existsb (out_of_range x) (answerIdx x)) "answer index out of range" issues in
  issues.

(** The issues in the order of the checks. *)
Definition issue_order : list string :=
  [ "missing prompt"; "needs ≥2 options"; "≤25 options supported";
    "missing answer(s)"; "answer index out of range" ].

(** A question the validator accepts, in the words of the data model. *)
Definition presentable (x : Question) : Prop :=
  q x <> "" /\
  (2 <= length (options x) <= 25)%nat /\
  answerIdx x <> [] /\
  (forall i, In i (answerIdx x) -> 0 <= i < Z.of_nat (length (options x))).

(** The built-in bank every guild starts with. *)
Definition SAMPLE_BANK : list Question :=
  [ mkQuestion "Which PPE items are required for contact precautions?" "sata"
      ["Gloves"; "Gown"; "N95 respirator"; "Eye protection"] [0; 1]
      "Contact = gloves + gown. N95 is airborne; eye protection is procedure-dependent.";
    mkQuestion "Priority action for suspected sepsis on med-surg?" "single"
      ["Start enteral feeds"; "Obtain blood cultures"; "Start DVT prophylaxis";
       "Give PRN lorazepam"] [1]
      "Cultures before antibiotics.";
    mkQuestion "Diabetes sick-day rule: Continue basal insulin." "tf"
      ["True"; "False"] [0] "Prevents DKA." ].

(** ** The CSV parser *)
Module Csv.

Definition dquote : ascii := ascii_of_nat 34.
Definition LF : ascii := ascii_of_nat 10.
Definition CR : ascii := ascii_of_nat 13.

Definition push_char (cur : string) (c : ascii) : string := cur +:+ String c "".

(** [parseCsvRow(line)]: the quote-aware comma splitter. *)
Fixpoint parseCsvRow_go (line : string) (out : list string) (cur : string)
    (inQ : bool) : list string :=
  match line with
  | EmptyString => out ++ [cur]
  | String ch rest =>
      if Ascii.eqb ch dquote then
        match rest with
        | String ch2 rest2 =>
            if inQ && Ascii.eqb ch2 dquote
            then parseCsvRow_go rest2 out (push_char cur dquote) inQ
            else parseCsvRow_go rest out cur (negb inQ)
        | EmptyString => parseCsvRow_go rest out cur (negb inQ)
        end
      else if Ascii.eqb ch ","%char && negb inQ
      then parseCsvRow_go rest (out ++ [cur]) "" inQ
      else parseCsvRow_go rest out (push_char cur ch) inQ
  end.

Definition parseCsvRow (line : string) : list string :=
  parseCsvRow_go line [] "" false.

(** [normalize(s)]: [undefined] (a cell the row does not have) reads as
    the empty string. *)
Definition normalize (s : option string) : string :=
  Js.trim (default "" s).

Definition JsNum := option Z.

(** [/^[A-Z]$/.test(ch)] and [/^\d+$/.test(ch)] *)
Definition is_one_upper (ch : string) : bool :=
  match ch with
  | String c EmptyString => Js.is_upper c
  | _ => false
  end.

Definition is_digits (ch : string) : bool :=
  Js.truthy ch && Js.all_chars Js.is_digit ch.

Definition charCodeAt0 (ch : string) : Z :=
  match ch with
  | String c _ => Z.of_nat (nat_of_ascii c)
  | EmptyString => 0
  end.

(** One token of an answer cell: a letter, a number, or [NaN] ([None]).
    Numbers are exact integers here; a value too large for a double's
    integer range differs from JavaScript's only above every option count. *)
Definition decode_token (ch : string) : JsNum :=
  if is_one_upper ch then Some (charCodeAt0 ch - 65)
  else if is_digits ch then Some (Js.digits_value ch 0 - 1)
  else None.

(** [.filter(n => Number.isInteger(n) && n >= 0)] *)
Definition int_nonneg (l : list JsNum) : list Z :=
  omap (fun n => match n with
                 | Some z => if 0 <=? z then Some z else None
                 | None => None
                 end) l.

(** [lettersToIdxArray(ans)] *)
Definition lettersToIdxArray (ans : string) : list Z :=
  let tokens :=
    filter (fun s => Js.truthy s = true)
      (map Js.trim (Js.split ";" (Js.replace_char ","%char ";"%char (Js.toUpperCase ans)))) in
  int_nonneg (map decode_token tokens).

(** The columns the header row names: [map] of [parseCsvSmart]. *)
Record ColMap := mkColMap {
  map_question : option nat;
  map_type : option nat;
  map_options : option nat;
  map_answer : option nat;
  map_explanation : option nat;
  map_optCols : gmap string nat
}.

Definition empty_map : ColMap := mkColMap None None None None None ∅.

Definition one_of (names : list string) (h : string) : bool :=
  existsb (String.eqb h) names.

(** [/^[a-z]$/.test(h)] *)
Definition is_letter_header (h : string) : bool :=
  match h with
  | String c EmptyString => Js.is_lower c
  | _ => false
  end.

(** The body of [headers.forEach((h,i) => ...)]. *)
Definition map_header (m : ColMap) (h : string) (i : nat) : ColMap :=
  let m := if one_of ["question"; "prompt"; "stem"] h
           then mkColMap (Some i) (map_type m) (map_options m) (map_answer m)
                  (map_explanation m) (map_optCols m) else m in
  let m := if one_of ["type"; "qtype"] h
           then mkColMap (map_question m) (Some i) (map_options m) (map_answer m)
                  (map_explanation m) (map_optCols m) else m in
  let m := if one_of ["options"; "choices"; "opts"] h
           then mkColMap (map_question m) (map_type m) (Some i) (map_answer m)
                  (map_explanation m) (map_optCols m) else m in
  let m := if one_of ["answer"; "answers"; "key"; "correct"] h
           then mkColMap (map_question m) (map_type m) (map_options m) (Some i)
                  (map_explanation m) (map_optCols m) else m in
  let m := if one_of ["explanation"; "rationale"; "why"] h
           then mkColMap (map_question m) (map_type m) (map_options m) (map_answer m)
                  (Some i) (map_optCols m) else m in
  if is_letter_header h
  then mkColMap (map_question m) (map_type m) (map_options m) (map_answer m)
         (map_explanation m) (<[h := i]> (map_optCols m))
  else m.

Fixpoint map_headers (hs : list string) (i : nat) (m : ColMap) : ColMap :=
  match hs with
  | [] => m
  | h :: hs' => map_headers hs' (S i) (map_header m h i)
  end.

Definition hasAnyOptions (m : ColMap) : bool :=
  bool_decide (map_options m <> None) || negb (bool_decide (map_optCols m = ∅)).

Definition header_error (headers : list string) : string :=
  "Headers must include at least: question, options (or a|b|c...), answer. Detected: "
  +:+ Js.join " | " headers.

Definition letterOrder : list string :=
  [ "a"; "b"; "c"; "d"; "e"; "f"; "g"; "h"; "i"; "j"; "k"; "l"; "m";
    "n"; "o"; "p"; "q"; "r"; "s"; "t"; "u"; "v"; "w"; "x"; "y"; "z" ].

Definition optLetterCols (m : ColMap) : list string :=
  Js.slice0 25 (filter (fun l => map_optCols m !! l <> None) letterOrder).

(** The cell at a column, [undefined] when the column is not mapped or the
    row is too short. *)
Definition cell (cells : list string) (col : option nat) : option string :=
  match col with
  | Some i => cells !! i
  | None => None
  end.

(** The packed options cell cut at its separator. *)
Definition split_packed (optionsStr : string) : list string :=
  if Js.includes "|" optionsStr then Js.split "|" optionsStr
  else if Js.includes " ; " optionsStr then Js.split " ; " optionsStr
  else if Js.includes ";" optionsStr then Js.split ";" optionsStr
  else [optionsStr].

(** [s.replace(/^[A-Z]\.\s*/i, '')] *)
Definition strip_letter_prefix (s : string) : string :=
  match s with
  | String c (String d rest) =>
      if (Js.is_upper c || Js.is_lower c) && Ascii.eqb d "."%char
      then Js.trimStart rest else s
  | _ => s
  end.

Definition is_answer_sep (c : ascii) : bool :=
  Ascii.eqb c ";"%char || Ascii.eqb c ","%char || Ascii.eqb c "|"%char.

(** The text fallback: each token of the cell is looked up among the
    lower-cased options and the index found, if any, is pushed. *)
Definition text_matches (options : list string) (ansRaw : string) : list Z :=
  let texts :=
    filter (fun s => Js.truthy s = true)
      (map (fun s => Js.toLowerCase (Js.trim s)) (Js.split_class is_answer_sep ansRaw)) in
  omap (fun txt =>
          let ix := Js.findIndex (fun o => String.eqb (Js.toLowerCase o) txt) options in
          if 0 <=? ix then Some ix else None) texts.

(** The letter and number decoding, kept to the indices below the option
    count. *)
Definition letters_in_range (options : list string) (ansRaw : string) : list Z :=
  filter (fun i => i < Z.of_nat (length options)) (lettersToIdxArray ansRaw).

(** The answer cell decoded against the options of its row. *)
Definition decode_answer (options : list string) (ansRaw : string) : list Z :=
  let answerIdx := letters_in_range options ansRaw in
  if bool_decide (answerIdx = []) && Js.truthy ansRaw
  then answerIdx ++ text_matches options ansRaw
  else answerIdx.

(** The options as the row states them: the packed cell cut up, or the
    non-empty cells of the letter columns. *)
Definition raw_options (m : ColMap) (cells : list string) : list string :=
  match map_options m with
  | Some _ => split_packed (normalize (cell cells (map_options m)))
  | None =>
      omap (fun l => match cell cells (map_optCols m !! l) with
                     | Some s => if Js.truthy s then Some s else None
                     | None => None
                     end) (optLetterCols m)
  end.

Definition row_options (m : ColMap) (cells : list string) (t : string) : list string :=
  let options := raw_options m cells in
  let options :=
    filter (fun s => Js.truthy s = true)
      (map (fun s => Js.trim (strip_letter_prefix s)) options) in
  let options :=
    if (String.eqb t "tf" || String.eqb t "truefalse") && bool_decide (options = [])
    then ["True"; "False"] else options in
  if (25 <? length options)%nat then Js.slice0 25 options else options.

(** One data line turned into a row object. *)
Definition parse_line (m : ColMap) (raw : string) : Question :=
  let cells := map Js.trim (parseCsvRow raw) in
  let qtext := normalize (cell cells (map_question m)) in
  let t :=
    Js.toLowerCase
      (normalize (match cell cells (map_type m) with
                  | Some s => if Js.truthy s then Some s else Some "single"
                  | None => Some "single"
                  end)) in
  let options := row_options m cells t in
  let ansRaw := normalize (cell cells (map_answer m)) in
  let answerIdx := decode_answer options ansRaw in
  let rationale := normalize (cell cells (map_explanation m)) in
  mkQuestion qtext t options answerIdx rationale.

Definition BOM : string :=
  String (ascii_of_nat 239) (String (ascii_of_nat 187) (String (ascii_of_nat 191) "")).

(** [text.replace(/^\uFEFF/, '')], the mark in its UTF-8 bytes. *)
Definition strip_bom (text : string) : string :=
  if String.prefix BOM text then String.substring 3 (String.length text - 3) text else text.

(** [text.split(/\r?\n/)] *)
Fixpoint split_lines_go (s : string) : string * list string :=
  match s with
  | EmptyString => (EmptyString, [])
  | String c s' =>
      let r := split_lines_go s' in
      if Ascii.eqb c LF then (EmptyString, r.1 :: r.2)
      else if Ascii.eqb c CR && String.prefix (String LF "") s' then r
      else (String c r.1, r.2)
  end.

Definition split_lines (s : string) : list string :=
  let r := split_lines_go s in r.1 :: r.2.

(** The non-blank lines of the text. *)
Definition nonblank_lines (text : string) : list string :=
  filter (fun l => Js.truthy (Js.trim l) = true) (split_lines (strip_bom text)).

Definition read_headers (line : string) : list string :=
  map (fun h => Js.toLowerCase (Js.trim h)) (parseCsvRow line).

Record Parsed := mkParsed {
  items : list Question;
  meta_rows : nat;
  meta_headers : list string
}.

(** [parseCsvSmart(text)] *)
Definition parseCsvSmart (text : string) : Js.Outcome Parsed :=
  match nonblank_lines text with
  | [] => Js.Returned (mkParsed [] 0 [])
  | first :: lines =>
      let headers := read_headers first in
      let m := map_headers headers 0 empty_map in
      if bool_decide (map_question m = None) || negb (hasAnyOptions m)
         || bool_decide (map_answer m = None)
      then Js.Thrown (header_error headers)
      else
        let rows := map (parse_line m) lines in
        Js.Returned (mkParsed
                    (filter (fun row => validateQuestion row = []) rows)
                    (length lines) headers)
  end.

(** The roles of the header row in the words of the format: a header
    names a role when it is one of the role's synonyms; a letter column is
    a header of one letter [a] to [z]. *)
Definition names (synonyms headers : list string) : Prop :=
  exists h, In h headers /\ In h synonyms.

Definition prompt_names : list string := ["question"; "prompt"; "stem"].
Definition packed_names : list string := ["options"; "choices"; "opts"].
Definition answer_names : list string := ["answer"; "answers"; "key"; "correct"].

Definition has_letter_column (headers : list string) : Prop :=
  exists h c, In h headers /\ h = String c "" /\ (97 <= nat_of_ascii c <= 122)%nat.

End Csv.


(** ** The quiz flow *)
Module Quiz.

(** *** Scoreboards: a [Map] from user id to points, in insertion order *)

Fixpoint map_get {V} (k : string) (m : list (string * V)) : option V :=
  match m with
  | [] => None
  | (k', v) :: m' => if String.eqb k k' then Some v else map_get k m'
  end.

(** [m.set(k, v)]: an existing key keeps its place, a new one goes last. *)
Fixpoint map_set {V} (k : string) (v : V) (m : list (string * V)) : list (string * V) :=
  match m with
  | [] => [(k, v)]
  | (k', v') :: m' =>
      if String.eqb k k' then (k', v) :: m' else (k', v') :: map_set k v m'
  end.

(** [arr.sort(cmp)] for a consistent comparator.  The language requires the
    sort to be stable, which fixes its result; insertion computes it. *)
Fixpoint sort_insert {A} (cmp : A -> A -> Z) (x : A) (l : list A) : list A :=
  match l with
  | [] => [x]
  | y :: l' => if cmp x y <=? 0 then x :: y :: l' else y :: sort_insert cmp x l'
  end.

Fixpoint sort {A} (cmp : A -> A -> Z) (l : list A) : list A :=
  match l with
  | [] => []
  | x :: l' => sort_insert cmp x (sort cmp l')
  end.

(** Points do not go up from [a] to [b]. *)
Definition desc (a b : string * Z) : Prop := b.2 <= a.2.

(** *** Session state *)

(** Why a collection window closed: [answered], [error], [manual-stop],
    or the collector's own [time]. *)
Inductive Reason := Answered | Failed | ManualStop | Time.

(** A message component collector: open until stopped, once, with a reason. *)
Record Collector := mkCollector { ended : bool; endReason : option Reason }.

Record Session := mkSession {
  index : nat;
  bank : list Question;
  active : bool;
  answered : bool;
  scoreboard : list (string * Z);
  collector : option Collector
}.

(** The process state: session objects live in [heap] and are shared by
    reference between the [sessions] Map and the handlers that close over
    them; [banks] and [lastBank] are keyed by guild. *)
Record World := mkWorld {
  heap : list Session;
  sessions : gmap string nat;
  banks : gmap string (gmap string (list Question));
  lastBank : gmap string string
}.

Definition set_heap (h : list Session) (w : World) : World :=
  mkWorld h (sessions w) (banks w) (lastBank w).

Definition set_sessions (m : gmap string nat) (w : World) : World :=
  mkWorld (heap w) m (banks w) (lastBank w).

(** [sessions.get(channelId)]: the session object, if any. *)
Definition session_at (channelId : string) (w : World) : option Session :=
  r ← sessions w !! channelId; heap w !! r.

(** A mutation of the session object behind reference [r]. *)
Definition update (r : nat) (f : Session -> Session) (w : World) : World :=
  match heap w !! r with
  | Some s => set_heap (<[r := f s]> (heap w)) w
  | None => w
  end.

Definition set_index (i : nat) (s : Session) : Session :=
  mkSession i (bank s) (active s) (answered s) (scoreboard s) (collector s).
Definition set_active (b : bool) (s : Session) : Session :=
  mkSession (index s) (bank s) b (answered s) (scoreboard s) (collector s).
Definition set_answered (b : bool) (s : Session) : Session :=
  mkSession (index s) (bank s) (active s) b (scoreboard s) (collector s).
Definition set_scoreboard (m : list (string * Z)) (s : Session) : Session :=
  mkSession (index s) (bank s) (active s) (answered s) m (collector s).
Definition set_collector (c : option Collector) (s : Session) : Session :=
  mkSession (index s) (bank s) (active s) (answered s) (scoreboard s) c.

(** *** What the bot sends *)

Inductive Msg :=
| NoQuizRunning                      (* 'No quiz is running in this channel.' *)
| QuizStopped                        (* 'Quiz stopped. Scoreboard cleared for this channel.' *)
| AlreadyAdvanced                    (* 'This question already advanced.' *)
| Verdict (isCorrect : bool) (correct : list Z) (why : string)
| SomethingWrong                     (* 'Something went wrong (logged).' *)
| TimeUp                              (* 'Time up! Moving on...' *)
| Skipping (issues : list string)
| Ask (idx total : nat) (x : Question)
| Board (content : string)
| EmptyBank                          (* 'Selected bank has no questions.' *)
| AlreadyRunning                     (* 'A quiz is already running in this channel.' *)
| Starting (count : Z)
| AdminOnly
| ImportFailed (message : string)
| NoValidRows (headers : list string) (rows : nat)
| Imported (n : nat) (name : string).

(** The code still to run after an [await]. *)
Inductive Task :=
| PresentQuestion (channelId : string) (r : nat)
| AfterSkip (channelId : string) (r : nat)
| OpenWindow (channelId : string) (r : nat)
| Advance (channelId : string) (r : nat)
| Release (channelId : string)
| EndWindow (channelId : string) (r : nat) (reason : Reason).

(** The result of one uninterrupted run of handler code: the state it
    leaves, what it sent, and what it awaits. *)
Record Run := mkRun { world : World; sent : list Msg; next : option Task }.

(** *** Scoreboard rendering *)

Definition NO_SCORES : string := "📊 No scores yet.".

Definition by_points_desc (a b : string * Z) : Z := b.2 - a.2.

Definition score_line (fetch : string -> option string) (idx : nat) (e : string * Z) : string :=
  let name := match fetch e.1 with
              | Some username => username
              | None => "User " +:+ e.1
              end in
  pretty (idx + 1)%nat +:+ ". **" +:+ name +:+ "** — " +:+ pretty e.2 +:+ " pts".

(** [showScoreboard(interaction, session)]: the content it sends, [fetch]
    being the lookup of user names. *)
Definition showScoreboard (fetch : string -> option string) (session : option Session) : string :=
  match session with
  | None => NO_SCORES
  | Some s =>
      if (length (scoreboard s) =? 0)%nat then NO_SCORES
      else
        let sorted := sort by_points_desc (scoreboard s) in
        let lines := imap (score_line fetch) sorted in
        "📊 **Scoreboard**" +:+ String Csv.LF "" +:+ Js.join (String Csv.LF "") lines
  end.

(** *** Presenting a question: [presentQuestion] between its awaits *)

(** Up to the first [await]: validate the current question and either
    announce the skip or send the question.  (Its callers keep [index]
    inside the bank; outside it the call throws and nothing is sent.) *)
Definition presentQuestion (channelId : string) (r : nat) (w : World) : Run :=
  match heap w !! r with
  | None => mkRun w [] None
  | Some s =>
      match bank s !! index s with
      | None => mkRun w [] None
      | Some x =>
          let issues := validateQuestion x in
          if bool_decide (issues = [])
          then mkRun w [Ask (index s) (length (bank s)) x] (Some (OpenWindow channelId r))
          else mkRun w [Skipping issues] (Some (AfterSkip channelId r))
      end
  end.

(** The last question is behind: the scoreboard is shown, then the session
    leaves the store. *)
Definition finish (fetch : string -> option string) (channelId : string) (r : nat)
    (w : World) : Run :=
  let w := update r (set_active false) w in
  mkRun w [Board (showScoreboard fetch (heap w !! r))] (Some (Release channelId)).

(** [session.index += 1] and what follows it in both places. *)
Definition advance (fetch : string -> option string) (channelId : string) (r : nat)
    (w : World) : Run :=
  let w := update r (fun s => set_index (S (index s)) s) w in
  match heap w !! r with
  | None => mkRun w [] None
  | Some s =>
      if (index s <? length (bank s))%nat then presentQuestion channelId r w
      else finish fetch channelId r w
  end.

(** After the question was sent: the window opens. *)
Definition openWindow (r : nat) (w : World) : Run :=
  let w := update r (fun s =>
             set_collector (Some (mkCollector false None))
               (set_answered false (set_active true s))) w in
  mkRun w [] None.

(** The collector's [end] handler. *)
Definition on_end (fetch : string -> option string) (channelId : string) (r : nat)
    (reason : Reason) (w : World) : Run :=
  match reason with
  | ManualStop => mkRun w [] None
  | Answered => advance fetch channelId r w
  | _ => mkRun w [TimeUp] (Some (Advance channelId r))
  end.

(** [collector.stop(reason)]: a collector ends once; ending it runs the
    [end] handler. *)
Definition collector_stop (fetch : string -> option string) (channelId : string) (r : nat)
    (reason : Reason) (w : World) : Run :=
  match heap w !! r with
  | None => mkRun w [] None
  | Some s =>
      match collector s with
      | None => mkRun w [] None
      | Some c =>
          if ended c then mkRun w [] None
          else on_end fetch channelId r reason
                 (update r (set_collector (Some (mkCollector true (Some reason)))) w)
      end
  end.

(** A session object whose open collector, if it has one, was ended by a
    manual stop. *)
Definition manually_stopped (s : Session) : Session :=
  match collector s with
  | Some c => if ended c then s
              else set_collector (Some (mkCollector true (Some ManualStop))) s
  | None => s
  end.

(** The session object behind [r] exists and its active flag is off. *)
Definition inactive (r : nat) (w : World) : Prop :=
  (active <$> heap w !! r) = Some false.

(** The code after an [await], by task. *)
Definition resume (fetch : string -> option string) (t : Task) (w : World) : Run :=
  match t with
  | PresentQuestion channelId r => presentQuestion channelId r w
  | AfterSkip channelId r => advance fetch channelId r w
  | OpenWindow channelId r => openWindow r w
  | Advance channelId r => advance fetch channelId r w
  | Release channelId => mkRun (set_sessions (delete channelId (sessions w)) w) [] None
  | EndWindow channelId r reason => collector_stop fetch channelId r reason w
  end.

(** *** The collection window *)

(** A button press: who pressed, the option index in the button's id, and
    how the platform will answer the [update] of the message. *)
Inductive UpdateResult := UpdateOk | UpdateExpired | UpdateFailed.

Record Press := mkPress { user : string; choice : Z; updating : UpdateResult }.

(** What the handler answers the press with. *)
Inductive Told := ToldAdvanced | ToldVerdict (isCorrect : bool) | ToldError.

(** The [collect] handler on the session object, up to its [await]. *)
Definition collect (p : Press) (s : Session) : Session * Told :=
  if answered s then (s, ToldAdvanced)
  else
    let s := set_answered true s in
    match bank s !! index s with
    | None => (s, ToldError)
    | Some x =>
        let isCorrect := bool_decide (choice p ∈ answerIdx x) in
        let s :=
          if isCorrect
          then let prev := default 0 (map_get (user p) (scoreboard s)) in
               set_scoreboard (map_set (user p) (prev + 1) (scoreboard s)) s
          else s in
        (s, ToldVerdict isCorrect)
    end.

(** How the handler ends the window after its [await], if it does. *)
Definition collect_stops (p : Press) (o : Told) : option Reason :=
  match o with
  | ToldAdvanced => None
  | ToldError => Some Failed
  | ToldVerdict _ =>
      match updating p with
      | UpdateOk => Some Answered
      | UpdateExpired => None
      | UpdateFailed => Some Failed
      end
  end.

(** The presses one window collects while it stays open, in order. *)
Fixpoint collect_all (ps : list Press) (s : Session) : Session * list Told :=
  match ps with
  | [] => (s, [])
  | p :: ps' =>
      let r := collect p s in
      let r' := collect_all ps' r.1 in
      (r'.1, r.2 :: r'.2)
  end.

Definition told_msg (s : Session) (o : Told) : Msg :=
  match o with
  | ToldAdvanced => AlreadyAdvanced
  | ToldError => SomethingWrong
  | ToldVerdict isCorrect =>
      match bank s !! index s with
      | Some x => Verdict isCorrect (answerIdx x) (rationale x)
      | None => SomethingWrong
      end
  end.

(** The handler on the shared session object: the press is answered and,
    after the [await], the window is stopped if the handler stops it. *)
Definition on_collect (channelId : string) (r : nat) (p : Press) (w : World) : Run :=
  match heap w !! r with
  | None => mkRun w [] None
  | Some s =>
      let c := collect p s in
      mkRun (set_heap (<[r := c.1]> (heap w)) w) [told_msg s c.2]
            (EndWindow channelId r <$> collect_stops p c.2)
  end.

(** *** Commands *)

(** [/quiz stop]: the branch of the command handler. *)
Definition stop (fetch : string -> option string) (channelId : string) (w : World) : Run :=
  match session_at channelId w, sessions w !! channelId with
  | Some session, Some r =>
      if negb (active session) then mkRun w [NoQuizRunning] None
      else
        let stopped := collector_stop fetch channelId r ManualStop w in
        mkRun (set_sessions (delete channelId (sessions (world stopped))) (world stopped))
              (sent stopped ++ [QuizStopped]) None
  | _, _ => mkRun w [NoQuizRunning] None
  end.

(** [/quiz score] *)
Definition score (fetch : string -> option string) (channelId : string) (w : World) : Run :=
  let session := default (mkSession 0 [] false false [] None) (session_at channelId w) in
  mkRun w [Board (showScoreboard fetch (Some session))] None.

(** JavaScript truthiness of an optional integer. *)
Definition given (desiredCount : option Z) : bool :=
  match desiredCount with
  | Some d => negb (d =? 0)
  | None => false
  end.

(** [count] of [actuallyStart]. *)
Definition start_count (desiredCount : option Z) (shuffledLength : Z) : Z :=
  if given desiredCount
  then Z.max 1 (Z.min (default 0 desiredCount) shuffledLength)
  else shuffledLength.

(** [actuallyStart(interaction, bankArr, desiredCount)] up to its first
    [await]; [shuffled] is what the sort with the random comparator made of
    the copy of [bankArr]. *)
Definition actuallyStart (channelId : string) (bankArr : list Question)
    (desiredCount : option Z) (shuffled : list Question) (w : World) : Run :=
  if bool_decide (bankArr = []) then mkRun w [EmptyBank] None
  else if bool_decide (sessions w !! channelId <> None) then mkRun w [AlreadyRunning] None
  else
    let count := start_count desiredCount (Z.of_nat (length shuffled)) in
    let selected := Js.slice0 (Z.to_nat count) shuffled in
    let session := mkSession 0 selected false false [] None in
    let r := length (heap w) in
    let w := set_sessions (<[channelId := r]> (sessions w)) (set_heap (heap w ++ [session]) w) in
    mkRun w [Starting count] (Some (PresentQuestion channelId r)).

(** [ensureGuildBank(guildId)] *)
Definition ensureGuildBank (guildId : string) (w : World) : World :=
  match banks w !! guildId with
  | Some _ => w
  | None =>
      mkWorld (heap w) (sessions w)
        (<[guildId := {[ "sample" := SAMPLE_BANK ]}]> (banks w))
        (<[guildId := "sample"]> (lastBank w))
  end.

(** [/quiz import]: the branch of the command handler; [fetched] is the
    text of the attachment, or the error its download threw. *)
Definition import (isAdmin : bool) (guildId name : string) (fetched : Js.Outcome string)
    (w : World) : Run :=
  if negb isAdmin then mkRun w [AdminOnly] None
  else
    match fetched with
    | Js.Thrown message => mkRun w [ImportFailed message] None
    | Js.Returned text =>
        match Csv.parseCsvSmart text with
        | Js.Thrown message => mkRun w [ImportFailed message] None
        | Js.Returned res =>
            if bool_decide (Csv.items res = [])
            then mkRun w [NoValidRows (Csv.meta_headers res) (Csv.meta_rows res)] None
            else
              match banks w !! guildId with
              | None => mkRun w [ImportFailed "Cannot read properties of undefined (reading 'set')"] None
              | Some map =>
                  mkRun (mkWorld (heap w) (sessions w)
                           (<[guildId := <[name := Csv.items res]> map]> (banks w))
                           (<[guildId := name]> (lastBank w)))
                        [Imported (length (Csv.items res)) name] None
              end
        end
    end.

End Quiz.

(** ** The shuffle: a sort by a random comparator *)
Module Shuffle.

(** The comparisons [Array.prototype.sort] makes on an array of some length
    are the engine's choice.  Whatever it does, it calls the comparator,
    branches on the sign of each result, and ends with an order of the
    positions: a tree. *)
Inductive Sorter :=
| Done (order : list nat)
| Compare (neg zero pos : Sorter).

Section Random.

(** [Math.random()] yields one of [2 * 2^bits] equally likely values
    [r / (2 * 2^bits)], [0 <= r]; a draw is its numerator. *)
Variable bits : nat.

Definition half : Z := 2 ^ Z.of_nat bits.
Definition resolution : Z := 2 * half.

(** The sign of [Math.random() - 0.5]. *)
Definition comparator (r : Z) : comparison := r ?= half.

Fixpoint run (t : Sorter) (draws : list Z) : option (list nat) :=
  match t with
  | Done order => Some order
  | Compare neg zero pos =>
      match draws with
      | [] => None
      | r :: draws' =>
          match comparator r with
          | Lt => run neg draws'
          | Eq => run zero draws'
          | Gt => run pos draws'
          end
      end
  end.

(** The array with its elements in the given order of positions. *)
Definition reorder {A} (order : list nat) (l : list A) : list A :=
  omap (fun i => l !! i) order.

(** [[...bankArr].sort(() => Math.random() - 0.5)] under the draws the
    comparator gets. *)
Definition sort_random {A} (t : Sorter) (draws : list Z) (bankArr : list A) : list A :=
  match run t draws with
  | Some order => reorder order bankArr
  | None => bankArr
  end.

(** Every sequence of [k] draws; each is as likely as any other. *)
Definition values : list Z := Z.of_nat <$> seq 0 (Z.to_nat resolution).

Fixpoint all_draws (k : nat) : list (list Z) :=
  match k with
  | O => [[]]
  | S k' => r ← values; cons r <$> all_draws k'
  end.

(** In how many of them the sort ends with the positions in [order]. *)
Definition ways (t : Sorter) (k : nat) (order : list nat) : nat :=
  length (filter (fun draws => run t draws = Some order) (all_draws k)).

(** In how many of them the element at position [i] ends at position [j]. *)
Definition places (t : Sorter) (k : nat) (i j : nat) : nat :=
  length (filter (fun draws => (run t draws ≫= fun order => order !! j) = Some i)
            (all_draws k)).

(** A uniform permutation of [n] elements: each of the [n!] orders in the
    same number of the draw sequences. *)
Definition uniform (t : Sorter) (k : nat) (n : nat) : Prop :=
  forall order, Permutation (seq 0 n) order ->
    (ways t k order * fact n)%nat = length (all_draws k).

(** The weaker reading: each element at each position in one [n]th of the
    draw sequences. *)
Definition evenly_placed (t : Sorter) (k : nat) (n : nat) : Prop :=
  forall i j, (i < n)%nat -> (j < n)%nat ->
    (places t k i j * n)%nat = length (all_draws k).

End Random.

(** A sorter for arrays of [n] elements: it always ends with an order of
    the [n] positions. *)
Fixpoint sound (n : nat) (t : Sorter) : Prop :=
  match t with
  | Done order => Permutation (seq 0 n) order
  | Compare neg zero pos => sound n neg /\ sound n zero /\ sound n pos
  end.

(** Insertion into a sorted prefix, on three elements: one such tree. *)
Definition insert_third (a b : nat) : Sorter :=
  let two := 2%nat in
  Compare (Compare (Done [two; a; b]) (Done [a; two; b]) (Done [a; two; b]))
          (Done [a; b; two]) (Done [a; b; two]).

Definition insertion3 : Sorter :=
  Compare (insert_third 1%nat 0%nat) (insert_third 0%nat 1%nat) (insert_third 0%nat 1%nat).

End Shuffle.

(** ** Buttons *)
Module Buttons.

(** [arr.slice(i, j)] for [0 <= i <= j]. *)
Definition slice {A} (i j : nat) (arr : list A) : list A := take (j - i) (drop i arr).

(** The loop of [chunk(arr, size)] from index [i] on.  The loop ends only
    if [i] gets past the array; [fuel] bounds its turns and [None] says
    that it ran out. *)
Fixpoint chunk_loop {A} (fuel : nat) (arr : list A) (size i : nat) (out : list (list A))
    : option (list (list A)) :=
  if (i <? length arr)%nat then
    match fuel with
    | O => None
    | S fuel' => chunk_loop fuel' arr size (i + size) (out ++ [slice i (i + size) arr])
    end
  else Some out.

(** [chunk(arr, size)], with a turn of the loop for each element at most. *)
Definition chunk {A} (arr : list A) (size : nat) : option (list (list A)) :=
  chunk_loop (length arr) arr size 0 [].

(** [String.fromCharCode(n)] for an ASCII code. *)
Definition fromCharCode (n : nat) : string := String (ascii_of_nat n) "".

Record Button := mkButton { customId : string; label : string }.

(** The button of option [i]: id [opt_i], label the [i]th capital letter. *)
Definition button {A} (i : nat) (_ : A) : Button :=
  mkButton ("opt_" +:+ pretty i) (fromCharCode (65 + i)).

(** [buildButtons(qObj)]: the rows of buttons. *)
Definition buildButtons (x : Question) : option (list (list Button)) :=
  chunk (imap button (options x)) 5.

(** The longest prefix of decimal digits. *)
Fixpoint leading_digits (s : string) : string :=
  match s with
  | String c s' => if Js.is_digit c then String c (leading_digits s') else EmptyString
  | EmptyString => EmptyString
  end.

(** [parseInt(s, 10)]: white space, a sign, then the digits there are;
    [NaN] ([None]) without a digit. *)
Definition parseInt (s : string) : Csv.JsNum :=
  let s := Js.trimStart s in
  let signed :=
    match s with
    | String c s' =>
        if Ascii.eqb c "-"%char then (-1, s')
        else if Ascii.eqb c "+"%char then (1, s')
        else (1, s)
    | EmptyString => (1, s)
    end in
  let digits := leading_digits signed.2 in
  if Js.truthy digits then Some (signed.1 * Js.digits_value digits 0) else None.

(** [parseInt(customId.split('_')[1], 10)]: the choice a press carries. *)
Definition choice_of (customId : string) : Csv.JsNum :=
  match Js.split "_" customId with
  | _ :: part :: _ => parseInt part
  | _ => None
  end.

(** The letters of the correct options as the verdict prints them:
    [[...correctSet].map(i => String.fromCharCode(65 + i)).join(', ')]. *)
Definition lettersCorrect (answerIdx : list nat) : string :=
  Js.join ", " (map (fun i => fromCharCode (65 + i)) answerIdx).

(** The tokens [lettersToIdxArray] decodes: the pieces between the
    separators, trimmed, the empty ones dropped. *)
Definition answer_tokens (ans : string) : list string :=
  filter (fun s => Js.truthy s = true)
    (map Js.trim (Js.split ";" (Js.replace_char ","%char ";"%char (Js.toUpperCase ans)))).

End Buttons.

(** ** Quoted CSV fields *)
Module Quoting.

(** A field as a CSV writer quotes it: between double quotes, each double
    quote of the field written twice. *)
Fixpoint escape (f : string) : string :=
  match f with
  | EmptyString => EmptyString
  | String c f' =>
      if Ascii.eqb c Csv.dquote
      then String Csv.dquote (String Csv.dquote (escape f'))
      else String c (escape f')
  end.

Definition quoted (f : string) : string :=
  String Csv.dquote (escape f +:+ String Csv.dquote "").

Definition quoted_line (fields : list string) : string :=
  Js.join "," (map quoted fields).



End Quoting.

(** ** Banks on disk *)
Module Persist.

(** A character [/[^a-z0-9_\-\.]/gi] leaves alone. *)
Definition is_safe (c : ascii) : bool :=
  Js.is_lower c || Js.is_upper c || Js.is_digit c
  || Ascii.eqb c "_" || Ascii.eqb c "-" || Ascii.eqb c ".".

(** [safeName(name)] *)
Definition safeName (name : string) : string :=
  String.substring 0 80 (Js.map_chars (fun c => if is_safe c then c else "_"%char) name).

(** The file of a bank in the data directory: the last part of
    [bankPath(guildId, bankName)]. *)
Definition bank_file (guildId bankName : string) : string :=
  guildId +:+ "__" +:+ safeName bankName +:+ ".json".

(** The digits a string starts with, and what follows them. *)
Fixpoint span_digits (s : string) : string * string :=
  match s with
  | String c s' =>
      if Js.is_digit c then let r := span_digits s' in (String c r.1, r.2)
      else (EmptyString, s)
  | EmptyString => (EmptyString, EmptyString)
  end.

(** A character the [.] of a regular expression does not match. *)
Definition is_line_end (c : ascii) : bool := Ascii.eqb c Csv.LF || Ascii.eqb c Csv.CR.

(** What [/.+\.json$/i] matches, less the extension: one character or more
    without a line end, then [.json] in any letter case, then the end. *)
Fixpoint body_name (s : string) : option string :=
  match s with
  | EmptyString => None
  | String c s' =>
      if is_line_end c then None
      else if String.eqb (Js.toLowerCase s') ".json" then Some (String c EmptyString)
      else String c <$> body_name s'
  end.

(** The loader's reading of a file name: [/^(\d+)__.+\.json$/i] gives the
    guild, the two [replace] calls the bank name. *)
Definition match_bank_file (f : string) : option (string * string) :=
  let r := span_digits f in
  if Js.truthy r.1 then
    match r.2 with
    | String c1 (String c2 body) =>
        if Ascii.eqb c1 "_" && Ascii.eqb c2 "_" then pair r.1 <$> body_name body
        else None
    | _ => None
    end
  else None.

(** What reading and parsing a file gives: no contents, text that
    [JSON.parse] rejects, a value that is no array, or the items. *)
Inductive FileRead :=
| Unreadable
| Broken
| NotArray
| Items (items : list Question).

(** One turn of the loop of [loadAllBanksFromDisk]; [None] when
    [JSON.parse] throws, which ends the loop. *)
Definition load_file (f : string) (read : FileRead) (w : Quiz.World) : option Quiz.World :=
  match match_bank_file f with
  | None => Some w
  | Some (guildId, name) =>
      match read with
      | Unreadable => Some w
      | Broken => None
      | NotArray => Some w
      | Items [] => Some w
      | Items items =>
          let w := Quiz.ensureGuildBank guildId w in
          let banks :=
            match Quiz.banks w !! guildId with
            | Some map => <[guildId := <[name := items]> map]> (Quiz.banks w)
            | None => Quiz.banks w
            end in
          let lastBank :=
            match Quiz.lastBank w !! guildId with
            | Some last => if Js.truthy last then Quiz.lastBank w
                           else <[guildId := name]> (Quiz.lastBank w)
            | None => <[guildId := name]> (Quiz.lastBank w)
            end in
          Some (Quiz.mkWorld (Quiz.heap w) (Quiz.sessions w) banks lastBank)
      end
  end.

(** [loadAllBanksFromDisk()] over the files of the directory with what
    reading each gives; the state reached when the loop ends or is left. *)
Fixpoint loadAllBanksFromDisk (files : list (string * FileRead)) (w : Quiz.World) : Quiz.World :=
  match files with
  | [] => w
  | (f, read) :: files' =>
      match load_file f read w with
      | Some w' => loadAllBanksFromDisk files' w'
      | None => w
      end
  end.

End Persist.

(** ** Starting from the command, and running what waits *)
Module Flow.
Import Quiz.

(** Truthiness of a string that may be [undefined]. *)
Definition truthy_opt (s : option string) : bool :=
  match s with
  | Some s => Js.truthy s
  | None => false
  end.

(** What [/quiz start] comes to: the menu of banks, the report of an
    unknown bank, or the run of [actuallyStart]; each with the state left. *)
Inductive Started :=
| AskBank (w : World)
| BankNotFound (name : option string) (w : World)
| Begun (run : Run).

(** [/quiz start] with its options [bank] (trimmed) and [count], from the
    seeding of the guild on; [shuffle] is what the sort with the random
    comparator makes of a bank.  The later choice in the menu is a handler
    of its own and not part of this run. *)
Definition quiz_start (shuffle : list Question -> list Question) (guildId channelId : string)
    (requested : option string) (desiredCount : option Z) (w : World) : Started :=
  let w := ensureGuildBank guildId w in
  match banks w !! guildId with
  | None => AskBank w
  | Some map =>
      let chosenName :=
        if truthy_opt requested then requested else lastBank w !! guildId in
      let chosenName :=
        if negb (truthy_opt chosenName) && (size map =? 1)%nat
        then fst <$> head (map_to_list map) else chosenName in
      if negb (truthy_opt chosenName) then AskBank w
      else
        match chosenName ≫= fun name => map !! name with
        | None => BankNotFound (if truthy_opt requested then requested else chosenName) w
        | Some bank =>
            let w := mkWorld (heap w) (sessions w) (banks w)
                       (<[guildId := default "" chosenName]> (lastBank w)) in
            Begun (actuallyStart channelId bank desiredCount (shuffle bank) w)
        end
  end.

(** What is said when a window ends for a reason other than a stop. *)
Definition end_notice (reason : Reason) : list Msg :=
  match reason with
  | Answered => []
  | _ => [TimeUp]
  end.

(** The state a start leaves. *)
Definition after_start (st : Started) : World :=
  match st with
  | AskBank w => w
  | BankNotFound _ w => w
  | Begun run => world run
  end.

(** Every guild with banks has a last used bank, with a name that is not
    empty and is one of its banks; and no bank is empty. *)
Definition registry_ok (w : World) : Prop :=
  forall guildId map, banks w !! guildId = Some map ->
    (exists name bank, lastBank w !! guildId = Some name /\ name <> "" /\
                       map !! name = Some bank) /\
    (forall name bank, map !! name = Some bank -> bank <> []).


(** The tasks run one after the other with no other event in between,
    until none waits; [None] when [fuel] runs out first. *)
Fixpoint settle (fetch : string -> option string) (fuel : nat) (t : Task) (w : World)
    : option (World * list Msg) :=
  match fuel with
  | O => None
  | S fuel' =>
      let r := resume fetch t w in
      match next r with
      | None => Some (world r, sent r)
      | Some t' =>
          match settle fetch fuel' t' (world r) with
          | Some (w', msgs) => Some (w', (sent r ++ msgs)%list)
          | None => None
          end
      end
  end.

(** The state with the session object behind [r] replaced. *)
Definition with_session (r : nat) (s : Session) (w : World) : World :=
  set_heap (<[r := s]> (heap w)) w.

(** The session object at the end of a quiz of which the last question is
    behind. *)
Definition ended_session (s : Session) : Session :=
  mkSession (length (bank s)) (bank s) false (answered s) (scoreboard s) (collector s).

(** The session object with a window open on question [j]. *)
Definition open_session (j : nat) (s : Session) : Session :=
  mkSession j (bank s) true false (scoreboard s) (Some (mkCollector false None)).

(** The notices for the unpresentable questions a list starts with, and
    the first presentable one, with its position counted from [i]. *)
Fixpoint scan (qs : list Question) (i : nat) : list Msg * option (nat * Question) :=
  match qs with
  | [] => ([], None)
  | x :: qs' =>
      if bool_decide (validateQuestion x = []) then ([], Some (i, x))
      else let r := scan qs' (S i) in (Skipping (validateQuestion x) :: r.1, r.2)
  end.

End Flow.

(** ** Concrete states used below *)

Definition sepsis_question : Question :=
  mkQuestion "Priority action for suspected sepsis on med-surg?" "single"
    ["Start enteral feeds"; "Obtain blood cultures"; "Start DVT prophylaxis";
     "Give PRN lorazepam"] [1]
    "Cultures before antibiotics.".

(** A window on the sepsis question, whose correct index is 1: two users
    press B one after the other. *)
Definition sepsis_window : Quiz.Session :=
  Quiz.mkSession 0 [sepsis_question] true false [] (Some (Quiz.mkCollector false None)).

(** A process that has served no command yet. *)
Definition fresh_world : Quiz.World := Quiz.mkWorld [] ∅ ∅ ∅.

(** A process with the sepsis window open in channel [42]. *)
Definition running_world : Quiz.World :=
  Quiz.mkWorld [sepsis_window] {[ "42" := 0%nat ]} ∅ ∅.

(** A row that came without prompt, options and answer. *)
Definition blank_question : Question := mkQuestion "" "single" ["only"] [] "".

(** A process whose one session is the one of channel [42]. *)
Definition one_session (s : Quiz.Session) : Quiz.World :=
  Quiz.mkWorld [s] {[ "42" := 0%nat ]} ∅ ∅.

(** A session that has just been stored, and one with a window open. *)
Definition stored (bank : list Question) : Quiz.Session :=
  Quiz.mkSession 0 bank false false [] None.
Definition windowed (bank : list Question) : Quiz.Session :=
  Quiz.mkSession 0 bank true false [] (Some (Quiz.mkCollector false None)).

(** The bank files of a data directory, with what reading each gives. *)
Definition data_dir : list (string * Persist.FileRead) :=
  [ ("notes.txt", Persist.Broken); ("7__week1.json", Persist.Items [sepsis_question]);
    ("7__empty.json", Persist.Items []) ].

(** Three users in the order in which they first scored. *)
Definition three_scores : list (string * Z) := [("A", 3); ("B", 5); ("C", 5)].

(** No user name can be fetched. *)
Definition no_names : string -> option string := fun _ => None.

(** * Properties *)

(** Case analysis on every test of the goal. *)
Ltac case_tests :=
  repeat match goal with |- context [if ?c then _ else _] => destruct c end.

(** ** The validator *)

Lemma existsb_out_of_range_false (x : Question) :
  existsb (out_of_range x) (answerIdx x) = false <->
  (forall i, In i (answerIdx x) -> 0 <= i < Z.of_nat (length (options x))).
Proof.
  unfold out_of_range. split.
  - intros H i Hi.
    assert (Hn : (i <? 0) || (Z.of_nat (length (options x)) <=? i) = false).
    { destruct ((i <? 0) || (Z.of_nat (length (options x)) <=? i)) eqn:E; [|reflexivity].
      rewrite <- H. symmetry. apply existsb_exists. exists i. split; assumption. }
    apply orb_false_iff in Hn as [H1 H2].
    apply Z.ltb_ge in H1. apply Z.leb_gt in H2. lia.
  - intros H. destruct (existsb _ _) eqn:E; [|reflexivity].
    apply existsb_exists in E as (i & Hi & Hb). specialize (H i Hi).
    apply orb_true_iff in Hb as [Hb|Hb];
      [apply Z.ltb_lt in Hb | apply Z.leb_le in Hb]; lia.
Qed.

Lemma truthy_iff (s : string) : Js.truthy s = true <-> s <> "".
Proof. destruct s; simpl; split; congruence. Qed.

Lemma validateQuestion_nil_iff (x : Question) :
  validateQuestion x = [] <-> presentable x.
Proof.
  unfold validateQuestion, presentable, push_if.
  rewrite <- existsb_out_of_range_false, <- truthy_iff.
  destruct (Js.truthy (q x)); simpl;
    destruct (Nat.ltb_spec (length (options x)) 2);
    destruct (Nat.ltb_spec 25 (length (options x)));
    case_bool_decide;
    destruct (existsb _ _); simpl; split;
    try (intros (? & ? & ? & ?)); try intro; try congruence; try lia;
    repeat split; try congruence; try lia.
Qed.

(** C7. For every question with fewer than 2 options the result of
    [validateQuestion] contains 'needs ≥2 options', with more than 25 it
    contains '≤25 options supported'; the issues always come in the order
    prompt, option count, answers present, indices in range; and a question
    with a non-empty prompt, 2 to 25 options and at least one correct index,
    all in range, gets the empty issue list (and only such a question). *)
Theorem validateQuestion_correct (x : Question) :
  ((length (options x) < 2)%nat -> In "needs ≥2 options" (validateQuestion x)) /\
  ((25 < length (options x))%nat -> In "≤25 options supported" (validateQuestion x)) /\
  sublist (validateQuestion x) issue_order /\
  (q x <> "" ->
   (2 <= length (options x) <= 25)%nat ->
   answerIdx x <> [] ->
   (forall i, In i (answerIdx x) -> 0 <= i < Z.of_nat (length (options x))) ->
   validateQuestion x = []) /\
  (validateQuestion x = [] <-> presentable x).
Proof.
  split; [|split; [|split; [|split]]].
  - intros H. unfold validateQuestion, push_if.
    apply Nat.ltb_lt in H. rewrite H.
    case_tests; simpl; rewrite ?in_app_iff; simpl; tauto.
  - intros H. unfold validateQuestion, push_if.
    apply Nat.ltb_lt in H. rewrite H.
    case_tests; simpl; rewrite ?in_app_iff; simpl; tauto.
  - unfold validateQuestion, push_if, issue_order.
    case_tests; simpl;
      repeat (first [apply sublist_skip | apply sublist_cons | apply sublist_nil]).
  - intros H1 H2 H3 H4. apply validateQuestion_nil_iff. repeat split; tauto || lia || auto.
    + apply H4; assumption.
    + apply H4; assumption.
  - apply validateQuestion_nil_iff.
Qed.

Lemma validateQuestion_correct_witness :
  validateQuestion sepsis_question = [] /\
  In "needs ≥2 options" (validateQuestion (mkQuestion "Only one?" "single" ["Yes"] [0] "")).
Proof.
  split.
  - destruct (validateQuestion_correct sepsis_question) as (_ & _ & _ & H & _).
    apply H.
    + discriminate.
    + simpl. lia.
    + discriminate.
    + simpl. intros i [<- | []]. lia.
  - destruct (validateQuestion_correct (mkQuestion "Only one?" "single" ["Yes"] [0] ""))
      as (H & _).
    apply H. simpl. lia.
Defined.

(** ** The CSV parser *)

Section CsvFacts.
Import Csv.

Lemma one_of_In (names : list string) (h : string) :
  one_of names h = true <-> In h names.
Proof.
  unfold one_of. rewrite existsb_exists. split.
  - intros (n & Hn & He). apply String.eqb_eq in He. subst. assumption.
  - intros H. exists h. split; [assumption | apply String.eqb_refl].
Qed.

(** *** Packed options *)

Lemma split_go_no_sep (sep s : string) :
  Js.includes sep s = false -> Js.split_go sep s 0 = (s, []).
Proof.
  induction s as [|c s IH]; intros H; [reflexivity|].
  cbn [Js.includes] in H. apply orb_false_iff in H as [Hp Hi].
  cbn [Js.split_go]. rewrite Hp, (IH Hi). reflexivity.
Qed.

Lemma split_no_sep (sep s : string) :
  Js.includes sep s = false -> Js.split sep s = [s].
Proof. intros H. unfold Js.split. rewrite (split_go_no_sep _ _ H). reflexivity. Qed.

Lemma split_cuts (sep s : string) :
  sep <> "" -> Js.includes sep s = true -> (2 <= length (Js.split sep s))%nat.
Proof.
  intros Hsep. unfold Js.split.
  assert (G : Js.includes sep s = true -> (Js.split_go sep s 0).2 <> []).
  { induction s as [|c s IH]; intros H.
    - destruct sep; [congruence | discriminate].
    - cbn [Js.includes] in H. cbn [Js.split_go].
      destruct (String.prefix sep (String c s)) eqn:Hp; [discriminate|].
      simpl in H. cbn [snd]. apply IH, H. }
  intros H. specialize (G H). destruct (Js.split_go sep s 0) as [hd tl]; simpl in *.
  destruct tl; [congruence | simpl; lia].
Qed.

(** C8. A packed options cell is cut at '|' whenever it contains one (a ';'
    in it or not); else at ' ; ' if it contains that; else at ';' if it
    contains one; else it is one option.  The cut happens (two pieces or
    more) exactly in the first three cases, and the packed column, when the
    header has one, is where the options of a row come from. *)
Theorem split_packed_precedence (optionsStr : string) :
  (Js.includes "|" optionsStr = true ->
   split_packed optionsStr = Js.split "|" optionsStr /\
   (2 <= length (split_packed optionsStr))%nat) /\
  (Js.includes "|" optionsStr = false -> Js.includes " ; " optionsStr = true ->
   split_packed optionsStr = Js.split " ; " optionsStr /\
   (2 <= length (split_packed optionsStr))%nat) /\
  (Js.includes "|" optionsStr = false -> Js.includes " ; " optionsStr = false ->
   Js.includes ";" optionsStr = true ->
   split_packed optionsStr = Js.split ";" optionsStr /\
   (2 <= length (split_packed optionsStr))%nat) /\
  (Js.includes "|" optionsStr = false -> Js.includes " ; " optionsStr = false ->
   Js.includes ";" optionsStr = false ->
   split_packed optionsStr = [optionsStr]) /\
  (forall m cells i, map_options m = Some i ->
   raw_options m cells = split_packed (normalize (cells !! i))).
Proof.
  unfold split_packed. repeat split.
  - rewrite H. reflexivity.
  - rewrite H. apply split_cuts; [discriminate | assumption].
  - rewrite H, H0. reflexivity.
  - rewrite H, H0. apply split_cuts; [discriminate | assumption].
  - rewrite H, H0, H1. reflexivity.
  - rewrite H, H0, H1. apply split_cuts; [discriminate | assumption].
  - intros H H0 H1. rewrite H, H0, H1. reflexivity.
  - intros m cells i H. unfold raw_options. rewrite H. reflexivity.
Qed.

Lemma split_packed_precedence_witness :
  split_packed "A|B;C|D" = ["A"; "B;C"; "D"] /\
  split_packed "one ; two;2 ; three" = ["one"; "two;2"; "three"] /\
  split_packed "x;y;z" = ["x"; "y"; "z"] /\
  split_packed "whole" = ["whole"].
Proof.
  split; [|split; [|split]].
  - destruct (split_packed_precedence "A|B;C|D") as (H & _).
    rewrite (proj1 (H eq_refl)). reflexivity.
  - destruct (split_packed_precedence "one ; two;2 ; three") as (_ & H & _).
    rewrite (proj1 (H eq_refl eq_refl)). reflexivity.
  - destruct (split_packed_precedence "x;y;z") as (_ & _ & H & _).
    rewrite (proj1 (H eq_refl eq_refl eq_refl)). reflexivity.
  - destruct (split_packed_precedence "whole") as (_ & _ & _ & H & _).
    apply H; reflexivity.
Defined.

(** *** Answer cells *)

Lemma digit_not_upper (c : ascii) : Js.is_digit c = true -> Js.is_upper c = false.
Proof.
  unfold Js.is_digit, Js.is_upper. generalize (nat_of_ascii c). intros n H.
  apply andb_true_iff in H as [_ H]. apply Nat.leb_le in H.
  apply andb_false_iff. left. apply Nat.leb_gt. lia.
Qed.

Lemma digits_not_one_upper (t : string) : is_digits t = true -> is_one_upper t = false.
Proof.
  unfold is_digits, is_one_upper. destruct t as [|c [|d t]]; try reflexivity.
  simpl. rewrite andb_true_r. apply digit_not_upper.
Qed.

Lemma int_nonneg_In (l : list JsNum) (i : Z) : In i (int_nonneg l) -> 0 <= i.
Proof.
  unfold int_nonneg. rewrite <- list_elem_of_In, list_elem_of_omap.
  intros ([z|] & _ & H); [|discriminate].
  destruct (Z.leb_spec 0 z); [|discriminate]. injection H as <-. assumption.
Qed.

Lemma letters_in_range_In (options : list string) (a : string) (i : Z) :
  In i (letters_in_range options a) -> 0 <= i < Z.of_nat (length options).
Proof.
  unfold letters_in_range. rewrite <- list_elem_of_In, list_elem_of_filter.
  intros [Hlt Hin]. split; [|assumption].
  apply list_elem_of_In in Hin. eapply int_nonneg_In, Hin.
Qed.

Lemma findIndex_from_bound {A} (p : A -> bool) (l : list A) (i : Z) :
  Js.findIndex_from p l i = -1 \/
  i <= Js.findIndex_from p l i < i + Z.of_nat (length l).
Proof.
  revert i. induction l as [|x l IH]; intros i; [left; reflexivity|].
  cbn [Js.findIndex_from]. destruct (p x).
  - right. simpl length. lia.
  - destruct (IH (i + 1)) as [H|H]; [left; assumption | right; simpl length; lia].
Qed.

Lemma text_matches_In (options : list string) (a : string) (i : Z) :
  In i (text_matches options a) -> 0 <= i < Z.of_nat (length options).
Proof.
  unfold text_matches. rewrite <- list_elem_of_In, list_elem_of_omap.
  intros (txt & _ & H).
  destruct (Z.leb_spec 0 (Js.findIndex (fun o => (Js.toLowerCase o =? txt)%string) options));
    [|discriminate].
  injection H as <-. unfold Js.findIndex in *.
  destruct (findIndex_from_bound (fun o => (Js.toLowerCase o =? txt)%string) options 0); lia.
Qed.

Lemma decode_answer_cases (options : list string) (a : string) :
  (letters_in_range options a <> [] \/ a = "" ->
   decode_answer options a = letters_in_range options a) /\
  (letters_in_range options a = [] -> a <> "" ->
   decode_answer options a = text_matches options a).
Proof.
  unfold decode_answer. split.
  - intros [H | ->].
    + rewrite bool_decide_eq_false_2 by assumption. reflexivity.
    + change (Js.truthy "") with false. rewrite andb_false_r. reflexivity.
  - intros H Ha. rewrite H. destruct a; [congruence | reflexivity].
Qed.

Lemma letters_in_range_fits (options : list string) (a : string) :
  Forall (fun i => i < Z.of_nat (length options)) (lettersToIdxArray a) ->
  letters_in_range options a = lettersToIdxArray a.
Proof.
  unfold letters_in_range. generalize (lettersToIdxArray a).
  induction 1 as [|i l Hi Hl IH]; [reflexivity|].
  rewrite filter_cons_True by assumption. f_equal. assumption.
Qed.

(** C6 as the specification words it fails when an earlier option repeats the text:
    the lookup of a text token stops at the first option equal to it. *)
Lemma answer_text_first_match :
  decode_answer ["Yes"; "Maybe"; "Maybe"] "A;C" = [0; 2] /\
  decode_answer ["Yes"; "Maybe"; "Maybe"] "1;3" = [0; 2] /\
  decode_answer ["Yes"; "Maybe"; "Maybe"] "Yes;Maybe" = [0; 1] /\
  decode_answer ["Yes"; "Maybe"; "Maybe"] "Yes;Maybe"
    <> decode_answer ["Yes"; "Maybe"; "Maybe"] "A;C".
Proof. vm_compute. repeat split; congruence. Qed.

(** C6 (amended). With 'Yes' and 'Maybe' the options at positions 0 and 2,
    and the option at position 1 not itself 'maybe' in any letter case, the
    cells 'A;C', '1;3' and 'Yes;Maybe' all decode to [0; 2].  A one-letter
    token is its position in the alphabet from 0, a token of digits its
    value less one, any other token is dropped, as is every index outside
    the options; text is matched only when letters and numbers gave nothing
    and the cell is not empty. *)
Theorem answer_decoding_equivalence (options : list string) :
  (options !! 0%nat = Some "Yes" -> options !! 2%nat = Some "Maybe" ->
   (forall o, options !! 1%nat = Some o -> Js.toLowerCase o <> "maybe") ->
   decode_answer options "A;C" = [0; 2] /\
   decode_answer options "1;3" = [0; 2] /\
   decode_answer options "Yes;Maybe" = [0; 2]) /\
  (forall c, Js.is_upper c = true ->
   decode_token (String c "") = Some (Z.of_nat (nat_of_ascii c) - 65)) /\
  (forall t, is_digits t = true -> decode_token t = Some (Js.digits_value t 0 - 1)) /\
  (forall t, is_one_upper t = false -> is_digits t = false -> decode_token t = None) /\
  (forall a i, In i (decode_answer options a) -> 0 <= i < Z.of_nat (length options)) /\
  (forall a, letters_in_range options a <> [] \/ a = "" ->
   decode_answer options a = letters_in_range options a) /\
  (forall a, letters_in_range options a = [] -> a <> "" ->
   decode_answer options a = text_matches options a).
Proof.
  split; [|split; [|split; [|split; [|split; [|split]]]]].
  - intros H0 H2 H1.
    destruct options as [|o0 [|o1 [|o2 rest]]]; try discriminate.
    injection H0 as ->. injection H2 as ->.
    specialize (H1 o1 eq_refl). apply String.eqb_neq in H1.
    assert (Hfit : forall a, lettersToIdxArray a = [0; 2] ->
              decode_answer ("Yes" :: o1 :: "Maybe" :: rest) a = [0; 2]).
    { intros a Ha.
      destruct (decode_answer_cases ("Yes" :: o1 :: "Maybe" :: rest) a) as [Hl _].
      assert (Hr : letters_in_range ("Yes" :: o1 :: "Maybe" :: rest) a = [0; 2]).
      { rewrite letters_in_range_fits; [assumption|]. rewrite Ha.
        repeat constructor; simpl length; lia. }
      rewrite Hl; [assumption | left; rewrite Hr; discriminate]. }
    split; [apply Hfit; reflexivity | split; [apply Hfit; reflexivity|]].
    destruct (decode_answer_cases ("Yes" :: o1 :: "Maybe" :: rest) "Yes;Maybe") as [_ Ht].
    rewrite Ht; [| reflexivity | discriminate].
    unfold text_matches.
    change (filter _ (map _ (Js.split_class is_answer_sep "Yes;Maybe")))
      with ["yes"; "maybe"].
    cbn [omap list_omap Js.findIndex Js.findIndex_from].
    change (Js.toLowerCase "Yes" =? "yes")%string with true.
    change (Js.toLowerCase "Yes" =? "maybe")%string with false.
    change (Js.toLowerCase "Maybe" =? "maybe")%string with true.
    cbv iota. rewrite H1. reflexivity.
  - intros c Hc. unfold decode_token. simpl. rewrite Hc. reflexivity.
  - intros t Ht. unfold decode_token. rewrite (digits_not_one_upper _ Ht), Ht. reflexivity.
  - intros t H1 H2. unfold decode_token. rewrite H1, H2. reflexivity.
  - intros a i. unfold decode_answer.
    destruct (bool_decide _ && _); [rewrite in_app_iff; intros [H|H]|];
      eauto using letters_in_range_In, text_matches_In.
  - apply decode_answer_cases.
  - apply decode_answer_cases.
Qed.

Lemma answer_decoding_equivalence_witness :
  decode_answer ["Yes"; "No"; "Maybe"; "Unsure"] "A;C" = [0; 2] /\
  decode_answer ["Yes"; "No"; "Maybe"; "Unsure"] "1;3" = [0; 2] /\
  decode_answer ["Yes"; "No"; "Maybe"; "Unsure"] "Yes;Maybe" = [0; 2].
Proof.
  destruct (answer_decoding_equivalence ["Yes"; "No"; "Maybe"; "Unsure"]) as (H & _).
  apply H; [reflexivity | reflexivity |].
  intros o Ho. injection Ho as <-. vm_compute. discriminate.
Defined.

(** *** The header row *)

Lemma is_letter_header_spec (h : string) :
  is_letter_header h = true <->
  exists c, h = String c "" /\ (97 <= nat_of_ascii c <= 122)%nat.
Proof.
  unfold is_letter_header, Js.is_lower. split.
  - destruct h as [|c [|d h]]; try discriminate.
    intros H. apply andb_true_iff in H as [H1 H2].
    apply Nat.leb_le in H1, H2. exists c. split; [reflexivity | lia].
  - intros (c & -> & H1 & H2). apply andb_true_iff.
    split; apply Nat.leb_le; assumption.
Qed.

Lemma map_header_fields (m : ColMap) (h : string) (i : nat) :
  map_question (map_header m h i)
    = (if one_of prompt_names h then Some i else map_question m) /\
  map_options (map_header m h i)
    = (if one_of packed_names h then Some i else map_options m) /\
  map_answer (map_header m h i)
    = (if one_of answer_names h then Some i else map_answer m) /\
  map_optCols (map_header m h i)
    = (if is_letter_header h then <[h := i]> (map_optCols m) else map_optCols m).
Proof.
  unfold map_header, prompt_names, packed_names, answer_names.
  destruct (one_of ["question"; "prompt"; "stem"] h),
    (one_of ["type"; "qtype"] h),
    (one_of ["options"; "choices"; "opts"] h),
    (one_of ["answer"; "answers"; "key"; "correct"] h),
    (one_of ["explanation"; "rationale"; "why"] h),
    (is_letter_header h); repeat split.
Qed.

(** A column is left unmapped exactly when it was unmapped before the loop
    and no header names its role. *)
Lemma map_headers_column (col : ColMap -> option nat) (role : string -> bool) :
  (forall m h i, col (map_header m h i) = if role h then Some i else col m) ->
  forall hs i m,
    col (map_headers hs i m) = None <->
    col m = None /\ Forall (fun h => role h = false) hs.
Proof.
  intros Hstep. induction hs as [|h hs IH]; intros i m; cbn [map_headers].
  - split; [intros H; split; [assumption | constructor] | tauto].
  - rewrite IH, Hstep, Forall_cons_iff. destruct (role h); intuition discriminate.
Qed.

Lemma map_headers_optCols (hs : list string) :
  forall i m,
    map_optCols (map_headers hs i m) = ∅ <->
    map_optCols m = ∅ /\ Forall (fun h => is_letter_header h = false) hs.
Proof.
  induction hs as [|h hs IH]; intros i m; cbn [map_headers].
  - split; [intros H; split; [assumption | constructor] | tauto].
  - destruct (map_header_fields m h i) as (_ & _ & _ & El).
    rewrite IH, El, Forall_cons_iff. destruct (is_letter_header h).
    + split; [intros [H _]; exfalso; exact (insert_non_empty (map_optCols m) h i H)
             | intros (_ & H & _); discriminate].
    + tauto.
Qed.

Lemma no_role_names (synonyms hs : list string) :
  Forall (fun h => one_of synonyms h = false) hs <-> ~ names synonyms hs.
Proof.
  unfold names. rewrite List.Forall_forall. split.
  - intros H (h & Hh & Hs). specialize (H h Hh).
    apply one_of_In in Hs. congruence.
  - intros H h Hh. destruct (one_of synonyms h) eqn:E; [|reflexivity].
    exfalso. apply H. exists h. split; [assumption | apply one_of_In, E].
Qed.

Lemma no_letter_column (hs : list string) :
  Forall (fun h => is_letter_header h = false) hs <-> ~ has_letter_column hs.
Proof.
  unfold has_letter_column. rewrite List.Forall_forall. split.
  - intros H (h & c & Hh & -> & Hc). specialize (H _ Hh).
    assert (is_letter_header (String c "") = true)
      by (apply is_letter_header_spec; eauto).
    congruence.
  - intros H h Hh. destruct (is_letter_header h) eqn:E; [|reflexivity].
    exfalso. apply H. apply is_letter_header_spec in E as (c & -> & Hc).
    exists (String c ""), c. auto.
Qed.

Lemma map_headers_roles (hs : list string) (i : nat) (m : ColMap) :
  (map_question (map_headers hs i m) = None <->
   map_question m = None /\ ~ names prompt_names hs) /\
  (map_options (map_headers hs i m) = None <->
   map_options m = None /\ ~ names packed_names hs) /\
  (map_answer (map_headers hs i m) = None <->
   map_answer m = None /\ ~ names answer_names hs) /\
  (map_optCols (map_headers hs i m) = ∅ <->
   map_optCols m = ∅ /\ ~ has_letter_column hs).
Proof.
  rewrite <- !no_role_names, <- no_letter_column.
  split; [|split; [|split]].
  - apply (map_headers_column map_question (one_of prompt_names)).
    intros. apply map_header_fields.
  - apply (map_headers_column map_options (one_of packed_names)).
    intros. apply map_header_fields.
  - apply (map_headers_column map_answer (one_of answer_names)).
    intros. apply map_header_fields.
  - apply map_headers_optCols.
Qed.

(** The headers that pass the check of [parseCsvSmart]. *)
Lemma header_check (headers : list string) :
  let m := map_headers headers 0 empty_map in
  bool_decide (map_question m = None) || negb (hasAnyOptions m)
    || bool_decide (map_answer m = None) = true <->
  ~ names prompt_names headers \/
  ~ names answer_names headers \/
  (~ names packed_names headers /\ ~ has_letter_column headers).
Proof.
  intros m. destruct (map_headers_roles headers 0%nat empty_map) as (Hq & Ho & Ha & Hl).
  fold m in Hq, Ho, Ha, Hl. unfold hasAnyOptions.
  rewrite !orb_true_iff, negb_true_iff, orb_false_iff, negb_false_iff.
  rewrite !bool_decide_eq_true, bool_decide_eq_false.
  rewrite Hq, Ha, Hl. simpl.
  assert (Hd : ~ map_options m <> None <-> map_options m = None).
  { destruct (map_options m); split; intros H; try congruence.
    exfalso. apply H. discriminate. }
  rewrite Hd, Ho. simpl. tauto.
Qed.

End CsvFacts.

(** ** The collection window *)

Section Window.
Import Quiz.

Lemma map_get_set_eq {V} (k : string) (v : V) (m : list (string * V)) :
  map_get k (map_set k v m) = Some v.
Proof.
  induction m as [|[k' v'] m IH]; cbn [map_set map_get].
  - rewrite String.eqb_refl. reflexivity.
  - destruct (String.eqb k k') eqn:E; cbn [map_get]; rewrite E; [reflexivity | assumption].
Qed.

Lemma map_get_set_ne {V} (k u : string) (v : V) (m : list (string * V)) :
  u <> k -> map_get u (map_set k v m) = map_get u m.
Proof.
  intros Hne. induction m as [|[k' v'] m IH]; cbn [map_set map_get].
  - apply String.eqb_neq in Hne. rewrite Hne. reflexivity.
  - destruct (String.eqb k k') eqn:E; cbn [map_get].
    + apply String.eqb_eq in E. subst k'.
      apply String.eqb_neq in Hne. rewrite Hne. reflexivity.
    + rewrite IH. reflexivity.
Qed.

Lemma collect_answered (p : Press) (s : Session) :
  answered s = true -> collect p s = (s, ToldAdvanced).
Proof. intros H. unfold collect. rewrite H. reflexivity. Qed.

Lemma collect_all_answered (ps : list Press) (s : Session) :
  answered s = true ->
  collect_all ps s = (s, repeat ToldAdvanced (length ps)).
Proof.
  intros H. induction ps as [|p ps IH]; [reflexivity|].
  cbn [collect_all]. rewrite (collect_answered p s H). cbn [fst snd].
  rewrite IH. reflexivity.
Qed.

Lemma collect_first (p : Press) (s : Session) (x : Question) :
  answered s = false -> bank s !! index s = Some x ->
  collect p s =
    (if bool_decide (choice p ∈ answerIdx x)
     then set_scoreboard
            (map_set (user p) (default 0 (map_get (user p) (scoreboard s)) + 1)
               (scoreboard s)) (set_answered true s)
     else set_answered true s,
     ToldVerdict (bool_decide (choice p ∈ answerIdx x))).
Proof.
  intros Ha Hx. unfold collect. rewrite Ha. cbn [set_answered bank index].
  rewrite Hx. destruct (bool_decide _); reflexivity.
Qed.

(** A press on the shared object of a question already answered changes
    nothing in the process state. *)
Lemma on_collect_answered (channelId : string) (r : nat) (p : Press) (w : World) (s : Session) :
  heap w !! r = Some s -> answered s = true ->
  on_collect channelId r p w = mkRun w [AlreadyAdvanced] None.
Proof.
  intros Hr Ha. unfold on_collect. rewrite Hr, (collect_answered p s Ha).
  cbn [fst snd told_msg collect_stops fmap option_fmap option_map].
  rewrite list_insert_id by assumption. destruct w; reflexivity.
Qed.

(** C1. In a window on a question [x], the first press sets the answered
    flag and scores one point for its user exactly when the chosen index is
    among the correct ones (no other user's points change, and a wrong
    choice leaves the whole scoreboard as it was); every later press on
    that question is told the question already advanced, stops nothing,
    and leaves the session, with its scoreboard and index, unchanged. *)
Theorem first_response_wins (s : Session) (x : Question) (p : Press) (later : list Press) :
  answered s = false ->
  bank s !! index s = Some x ->
  let first := collect p s in
  let rest := collect_all later first.1 in
  (choice p ∈ answerIdx x <-> first.2 = ToldVerdict true) /\
  (choice p ∈ answerIdx x ->
   map_get (user p) (scoreboard first.1)
     = Some (default 0 (map_get (user p) (scoreboard s)) + 1) /\
   forall u, u <> user p ->
     map_get u (scoreboard first.1) = map_get u (scoreboard s)) /\
  (choice p ∉ answerIdx x ->
   first.2 = ToldVerdict false /\ scoreboard first.1 = scoreboard s) /\
  answered first.1 = true /\ index first.1 = index s /\
  rest.2 = repeat ToldAdvanced (length later) /\
  (forall p', collect_stops p' ToldAdvanced = None) /\
  rest.1 = first.1 /\
  scoreboard rest.1 = scoreboard first.1 /\
  index rest.1 = index s /\
  (forall channelId r w p', heap w !! r = Some first.1 ->
     on_collect channelId r p' w = mkRun w [AlreadyAdvanced] None).
Proof.
  intros Ha Hx first rest.
  assert (Hf : first = collect p s) by reflexivity.
  rewrite (collect_first p s x Ha Hx) in Hf.
  assert (Hans : answered first.1 = true).
  { rewrite Hf. cbn [fst]. destruct (bool_decide _); reflexivity. }
  assert (Hidx : index first.1 = index s).
  { rewrite Hf. cbn [fst]. destruct (bool_decide _); reflexivity. }
  assert (Hrest : rest = (first.1, repeat ToldAdvanced (length later)))
    by (apply collect_all_answered, Hans).
  repeat split.
  - intros Hin. rewrite Hf. cbn [snd]. rewrite bool_decide_eq_true_2 by assumption.
    reflexivity.
  - rewrite Hf. cbn [snd]. intros H. injection H as H. apply bool_decide_eq_true in H.
    assumption.
  - rewrite Hf. cbn [fst]. rewrite bool_decide_eq_true_2 by assumption.
    cbn [scoreboard set_scoreboard]. apply map_get_set_eq.
  - intros u Hu. rewrite Hf. cbn [fst]. rewrite bool_decide_eq_true_2 by assumption.
    cbn [scoreboard set_scoreboard]. apply map_get_set_ne, Hu.
  - rewrite Hf. cbn [snd]. rewrite bool_decide_eq_false_2 by assumption. reflexivity.
  - rewrite Hf. cbn [fst]. rewrite bool_decide_eq_false_2 by assumption. reflexivity.
  - assumption.
  - assumption.
  - rewrite Hrest. reflexivity.
  - rewrite Hrest. reflexivity.
  - rewrite Hrest. reflexivity.
  - rewrite Hrest. cbn [fst]. assumption.
  - intros channelId r w p' Hr. eapply on_collect_answered; eassumption.
Qed.

Lemma first_response_wins_witness :
  let first := collect (mkPress "ana" 1 UpdateOk) sepsis_window in
  let rest := collect_all [mkPress "ben" 1 UpdateOk] first.1 in
  map_get "ana" (scoreboard rest.1) = Some 1 /\
  map_get "ben" (scoreboard rest.1) = None /\
  rest.2 = [ToldAdvanced].
Proof.
  pose proof (first_response_wins sepsis_window sepsis_question
                (mkPress "ana" 1 UpdateOk) [mkPress "ben" 1 UpdateOk]
                eq_refl eq_refl) as H.
  cbv zeta in H. destruct H as (_ & Hs & _ & _ & _ & Hr & _ & He & _).
  intros first rest. subst first rest. rewrite He, Hr.
  assert (Hin : (1 : Z) ∈ answerIdx sepsis_question) by (apply list_elem_of_In; left; reflexivity).
  destruct (Hs Hin) as [H1 H2].
  split; [exact H1 | split; [|reflexivity]].
  rewrite (H2 "ben"); [reflexivity | discriminate].
Defined.

End Window.

(** ** Stopping and starting *)

Section Commands.
Import Quiz.
Variable fetch : string -> option string.

Lemma set_heap_id (w : World) (r : nat) (s : Session) :
  heap w !! r = Some s -> set_heap (<[r := s]> (heap w)) w = w.
Proof. intros H. rewrite list_insert_id by assumption. destruct w; reflexivity. Qed.

(** A manual stop ends the collector and runs nothing else: the [end]
    handler returns at once. *)
Lemma collector_stop_manual (channelId : string) (r : nat) (w : World) (s : Session) :
  heap w !! r = Some s ->
  collector_stop fetch channelId r ManualStop w
    = mkRun (set_heap (<[r := manually_stopped s]> (heap w)) w) [] None.
Proof.
  intros Hr. unfold collector_stop, manually_stopped. rewrite Hr.
  destruct (collector s) as [c|]; [destruct (ended c)|].
  - rewrite set_heap_id by assumption. reflexivity.
  - cbn [on_end]. unfold update. rewrite Hr. reflexivity.
  - rewrite set_heap_id by assumption. reflexivity.
Qed.

Lemma stop_no_session (channelId : string) (w : World) :
  sessions w !! channelId = None ->
  stop fetch channelId w = mkRun w [NoQuizRunning] None.
Proof.
  intros H. unfold stop, session_at. rewrite H. reflexivity.
Qed.

Lemma stop_active (channelId : string) (w : World) (r : nat) (s : Session) :
  sessions w !! channelId = Some r -> heap w !! r = Some s -> active s = true ->
  stop fetch channelId w
    = mkRun (mkWorld (<[r := manually_stopped s]> (heap w))
               (delete channelId (sessions w)) (banks w) (lastBank w))
            [QuizStopped] None.
Proof.
  intros Hc Hr Ha. unfold stop, session_at. rewrite Hc. cbn. rewrite Hr, Ha. cbn.
  rewrite (collector_stop_manual _ _ _ _ Hr). reflexivity.
Qed.

(** C4. With no session for the channel, stop says that no quiz is running
    and leaves the whole state as it is.  A stop of a running session ends
    its collector with the manual-stop reason (which advances nothing and
    shows no scoreboard), deletes the session from the store and reports
    the stop; a second stop then finds no session, says that no quiz is
    running, and the state after two stops is the state after one. *)
Theorem stop_idempotent (channelId : string) (w : World) :
  (sessions w !! channelId = None ->
   stop fetch channelId w = mkRun w [NoQuizRunning] None) /\
  (forall r s,
     sessions w !! channelId = Some r -> heap w !! r = Some s -> active s = true ->
     let once := stop fetch channelId w in
     let twice := stop fetch channelId (world once) in
     sent once = [QuizStopped] /\ next once = None /\
     sessions (world once) = delete channelId (sessions w) /\
     sessions (world once) !! channelId = None /\
     heap (world once) = <[r := manually_stopped s]> (heap w) /\
     index (manually_stopped s) = index s /\
     scoreboard (manually_stopped s) = scoreboard s /\
     banks (world once) = banks w /\ lastBank (world once) = lastBank w /\
     twice = mkRun (world once) [NoQuizRunning] None /\
     world twice = world once).
Proof.
  split; [apply stop_no_session|].
  intros r s Hc Hr Ha once twice.
  assert (Ho : once = stop fetch channelId w) by reflexivity.
  rewrite (stop_active _ _ _ _ Hc Hr Ha) in Ho.
  assert (Hnone : sessions (world once) !! channelId = None).
  { rewrite Ho. cbn [world sessions]. apply lookup_delete_eq. }
  assert (Ht : twice = mkRun (world once) [NoQuizRunning] None)
    by (apply stop_no_session, Hnone).
  clearbody once twice. subst twice once.
  cbn [world sent next sessions heap banks lastBank] in *.
  repeat split; try assumption;
    unfold manually_stopped; destruct (collector s) as [c|];
    try destruct (ended c); reflexivity.
Qed.

(** Only the opening of a window sets the active flag: every other piece
    of handler code leaves an inactive session inactive. *)
Lemma update_keeps_inactive (r r' : nat) (f : Session -> Session) (w : World) :
  (forall s, active s = false -> active (f s) = false) ->
  inactive r w -> inactive r (update r' f w).
Proof.
  unfold inactive, update. intros Hf Hr.
  destruct (heap w !! r') as [s'|] eqn:Hs'; [|assumption].
  cbn [heap set_heap]. destruct (decide (r' = r)) as [->|Hne].
  - rewrite list_lookup_insert_eq by (eapply lookup_lt_Some, Hs').
    rewrite Hs' in Hr. cbn in *. f_equal. apply Hf. congruence.
  - rewrite list_lookup_insert_ne by assumption. assumption.
Qed.

Lemma presentQuestion_world (channelId : string) (r : nat) (w : World) :
  world (presentQuestion channelId r w) = w.
Proof.
  unfold presentQuestion. destruct (heap w !! r) as [s|]; [|reflexivity].
  destruct (bank s !! index s); [destruct (bool_decide _)|]; reflexivity.
Qed.

Lemma advance_keeps_inactive (channelId : string) (r r' : nat) (w : World) :
  inactive r w -> inactive r (world (advance fetch channelId r' w)).
Proof.
  intros H. unfold advance.
  set (w1 := update r' _ w).
  assert (H1 : inactive r w1) by (apply update_keeps_inactive; [intros []; auto | assumption]).
  destruct (heap w1 !! r') as [s|]; [|assumption].
  destruct (index s <? length (bank s))%nat.
  - rewrite presentQuestion_world. assumption.
  - unfold finish. cbn [world]. apply update_keeps_inactive; [reflexivity | assumption].
Qed.

Lemma resume_keeps_inactive (t : Task) (r : nat) (w : World) :
  (forall channelId r', t <> OpenWindow channelId r') ->
  inactive r w -> inactive r (world (resume fetch t w)).
Proof.
  intros Ht H. destruct t as [c r'|c r'|c r'|c r'|c|c r' reason]; cbn [resume].
  - rewrite presentQuestion_world. assumption.
  - apply advance_keeps_inactive, H.
  - exfalso. eapply Ht. reflexivity.
  - apply advance_keeps_inactive, H.
  - assumption.
  - unfold collector_stop. destruct (heap w !! r') as [s|]; [|assumption].
    destruct (collector s) as [col|]; [|assumption].
    destruct (ended col); [assumption|].
    set (w1 := update r' _ w).
    assert (H1 : inactive r w1)
      by (apply update_keeps_inactive; [intros []; auto | assumption]).
    destruct reason; cbn [on_end world]; try assumption.
    apply advance_keeps_inactive, H1.
Qed.

(** C10. A session that is in the store with its active flag off makes stop
    say that no quiz is running, and the stop changes nothing: the session
    stays in the store as it was.  That is the state a start leaves until
    the first window opens: the start stores the session inactive, sending
    the question changes no state, and only the opening of the window sets
    the flag. *)
Theorem stop_ignores_inactive_session (channelId : string) (w : World) :
  (forall r s,
     sessions w !! channelId = Some r -> heap w !! r = Some s -> active s = false ->
     stop fetch channelId w = mkRun w [NoQuizRunning] None) /\
  (forall bankArr desiredCount shuffled,
     bankArr <> [] -> sessions w !! channelId = None ->
     let started := actuallyStart channelId bankArr desiredCount shuffled w in
     let r := length (heap w) in
     exists s,
       sessions (world started) !! channelId = Some r /\
       heap (world started) !! r = Some s /\
       active s = false /\
       next started = Some (PresentQuestion channelId r) /\
       world (presentQuestion channelId r (world started)) = world started /\
       stop fetch channelId (world started) = mkRun (world started) [NoQuizRunning] None /\
       (forall t, (forall c r', t <> OpenWindow c r') ->
          inactive r (world (resume fetch t (world started)))) /\
       (active <$> heap (world (openWindow r (world started))) !! r) = Some true).
Proof.
  split.
  - intros r s Hc Hr Ha. unfold stop, session_at. rewrite Hc. cbn. rewrite Hr, Ha.
    reflexivity.
  - intros bankArr desiredCount shuffled Hb Hs started r.
    assert (Hst : started = actuallyStart channelId bankArr desiredCount shuffled w)
      by reflexivity.
    unfold actuallyStart in Hst.
    rewrite bool_decide_eq_false_2 in Hst by assumption.
    rewrite bool_decide_eq_false_2 in Hst by (rewrite Hs; intros H; apply H; reflexivity).
    set (session := mkSession 0 _ false false [] None) in Hst.
    exists session.
    assert (Hc : sessions (world started) !! channelId = Some r)
      by (rewrite Hst; cbn [world sessions set_sessions set_heap]; apply lookup_insert_eq).
    assert (Hr : heap (world started) !! r = Some session)
      by (rewrite Hst; cbn [world heap set_sessions set_heap];
          apply list_lookup_middle; reflexivity).
    repeat split; try assumption.
    + rewrite Hst. reflexivity.
    + unfold presentQuestion. rewrite Hr.
      destruct (bank session !! index session); [destruct (bool_decide _)|]; reflexivity.
    + unfold stop, session_at. rewrite Hc. cbn. rewrite Hr. reflexivity.
    + intros t Ht. apply resume_keeps_inactive; [assumption|].
      unfold inactive. rewrite Hr. reflexivity.
    + unfold openWindow, update. rewrite Hr. cbn [world heap set_heap].
      rewrite list_lookup_insert_eq by (eapply lookup_lt_Some, Hr). reflexivity.
Qed.

End Commands.

(** ** Starting: how many questions a session gets *)

Section Start.
Import Quiz.

Lemma start_count_given (d len : Z) :
  d <> 0 -> 1 <= len -> start_count (Some d) len = Z.min (Z.max d 1) len.
Proof.
  intros Hd Hlen. unfold start_count, given.
  apply Z.eqb_neq in Hd. rewrite Hd. simpl. lia.
Qed.

(** The session a start stores. *)
Lemma actuallyStart_session (channelId : string) (bankArr shuffled : list Question)
    (desiredCount : option Z) (w : World) :
  bankArr <> [] -> sessions w !! channelId = None ->
  session_at channelId (world (actuallyStart channelId bankArr desiredCount shuffled w))
    = Some (mkSession 0
              (Js.slice0 (Z.to_nat (start_count desiredCount (Z.of_nat (length shuffled))))
                 shuffled)
              false false [] None).
Proof.
  intros Hb Hs. unfold actuallyStart.
  rewrite bool_decide_eq_false_2 by assumption.
  rewrite bool_decide_eq_false_2 by (rewrite Hs; intros H; apply H; reflexivity).
  unfold session_at. cbn [world sessions heap set_sessions set_heap].
  rewrite lookup_insert_eq. cbn. apply list_lookup_middle. reflexivity.
Qed.

(** C2 as the specification words it fails for a count of 0, which the code reads
    as no count: the session gets the whole bank, not 1 question. *)
Lemma start_count_zero_is_absent :
  exists s,
    session_at "42" (world (actuallyStart "42" SAMPLE_BANK (Some 0) SAMPLE_BANK fresh_world))
      = Some s /\
    length (bank s) = 3%nat /\
    Z.of_nat (length (bank s)) <> Z.min (Z.max 0 1) (Z.of_nat (length SAMPLE_BANK)).
Proof.
  eexists. split; [reflexivity|]. split; [reflexivity|]. vm_compute. discriminate.
Qed.

(** C2 (amended). For a non-empty bank, a start with a count other than 0
    selects [min (max count 1) length] questions from the front of the
    shuffled bank, whose length is the bank's: a negative count gives 1
    question, a count above the bank size the whole bank; with no count
    the session gets the whole shuffled bank. *)
Theorem start_selects_count (channelId : string) (bankArr shuffled : list Question)
    (desiredCount : option Z) (w : World) :
  bankArr <> [] ->
  sessions w !! channelId = None ->
  Permutation bankArr shuffled ->
  exists s,
    session_at channelId (world (actuallyStart channelId bankArr desiredCount shuffled w))
      = Some s /\
    bank s = Js.slice0 (length (bank s)) shuffled /\
    length shuffled = length bankArr /\
    match desiredCount with
    | Some d =>
        d <> 0 ->
        Z.of_nat (length (bank s)) = Z.min (Z.max d 1) (Z.of_nat (length shuffled)) /\
        (d < 0 -> length (bank s) = 1%nat) /\
        (Z.of_nat (length bankArr) < d -> length (bank s) = length bankArr)
    | None => bank s = shuffled
    end.
Proof.
  intros Hb Hs Hp.
  assert (Hlen : length shuffled = length bankArr) by (symmetry; apply Permutation_length, Hp).
  assert (Hpos : 1 <= Z.of_nat (length shuffled)).
  { rewrite Hlen. destruct bankArr; [congruence | simpl length; lia]. }
  eexists. split; [apply actuallyStart_session; assumption|].
  cbn [bank]. unfold Js.slice0.
  split; [|split; [assumption|]].
  - generalize (Z.to_nat (start_count desiredCount (Z.of_nat (length shuffled)))).
    intros n. rewrite length_take.
    destruct (Nat.le_ge_cases n (length shuffled)).
    + rewrite Nat.min_l by assumption. reflexivity.
    + rewrite Nat.min_r by assumption. rewrite !take_ge by lia. reflexivity.
  - destruct desiredCount as [d|].
    + intros Hd. rewrite (start_count_given d _ Hd Hpos), length_take.
      split; [lia | split; intros; lia].
    + unfold start_count. cbn [given]. rewrite Nat2Z.id. apply firstn_all.
Qed.

Lemma start_selects_count_witness :
  let shuffled := Shuffle.sort_random 1 Shuffle.insertion3 [0; 0; 0] SAMPLE_BANK in
  exists s,
    session_at "42"
      (world (actuallyStart "42" SAMPLE_BANK (Some (-4)) shuffled fresh_world))
      = Some s /\
    length (bank s) = 1%nat.
Proof.
  intros shuffled.
  destruct (start_selects_count "42" SAMPLE_BANK shuffled (Some (-4)) fresh_world)
    as (s & Hs & _ & _ & H).
  - discriminate.
  - reflexivity.
  - apply Permutation_rev.
  - exists s. split; [exact Hs|]. apply H; lia.
Defined.

End Start.

(** ** Import: a header row without the required columns *)

Section ImportFacts.
Import Csv Quiz.

(** C5. When the header row names no prompt column, or no answer column,
    or neither a packed options column nor any one-letter column, the parse
    throws an error whose message ends with the headers it read, joined by
    ' | '; no items come out of it, and an import of such a text stores no
    bank: the state is unchanged and the failure, with that message, is
    what an administrator is told. *)
Theorem parse_fails_without_required_headers (text first : string) (lines : list string) :
  nonblank_lines text = first :: lines ->
  ~ names prompt_names (read_headers first) \/
  ~ names answer_names (read_headers first) \/
  (~ names packed_names (read_headers first) /\ ~ has_letter_column (read_headers first)) ->
  parseCsvSmart text = Js.Thrown (header_error (read_headers first)) /\
  header_error (read_headers first)
    = "Headers must include at least: question, options (or a|b|c...), answer. Detected: "
      +:+ Js.join " | " (read_headers first) /\
  (forall isAdmin guildId name w,
     world (import isAdmin guildId name (Js.Returned text) w) = w /\
     (isAdmin = true ->
      sent (import isAdmin guildId name (Js.Returned text) w)
        = [ImportFailed (header_error (read_headers first))])).
Proof.
  intros Hl Hm.
  assert (Hp : parseCsvSmart text = Js.Thrown (header_error (read_headers first))).
  { unfold parseCsvSmart. rewrite Hl.
    apply header_check in Hm. cbv zeta in Hm. rewrite Hm. reflexivity. }
  split; [assumption | split].
  - reflexivity.
  - intros isAdmin guildId name w. unfold import. rewrite Hp.
    destruct isAdmin; split; try reflexivity. discriminate.
Qed.

(** With all three present, the parse returns. *)
Lemma parse_returns_with_required_headers (text first : string) (lines : list string) :
  nonblank_lines text = first :: lines ->
  names prompt_names (read_headers first) ->
  names answer_names (read_headers first) ->
  names packed_names (read_headers first) \/ has_letter_column (read_headers first) ->
  exists res, parseCsvSmart text = Js.Returned res /\
              meta_rows res = length lines /\ meta_headers res = read_headers first.
Proof.
  intros Hl Hq Ha Ho. unfold parseCsvSmart. rewrite Hl.
  pose proof (header_check (read_headers first)) as Hc. cbv zeta in Hc.
  destruct (_ || _ || _).
  - exfalso. destruct Hc as [Hc _]. specialize (Hc eq_refl). tauto.
  - eexists. split; [reflexivity | split; reflexivity].
Qed.

Lemma parse_fails_without_required_headers_witness :
  parseCsvSmart ("question,options,notes" +:+ String LF "Which?,a|b,A")
    = Js.Thrown (header_error ["question"; "options"; "notes"]).
Proof.
  apply (parse_fails_without_required_headers _ "question,options,notes" ["Which?,a|b,A"]).
  - reflexivity.
  - right. left. intros (h & Hh & Hs).
    change (read_headers "question,options,notes")
      with ["question"; "options"; "notes"] in Hh.
    unfold answer_names in Hs. simpl in Hh, Hs.
    intuition (subst; discriminate).
Defined.

End ImportFacts.

(** ** The scoreboard *)

Section Scoreboard.
Import Quiz.

Lemma sort_insert_perm {A} (cmp : A -> A -> Z) (x : A) (l : list A) :
  Permutation (sort_insert cmp x l) (x :: l).
Proof.
  induction l as [|y l IH]; cbn [sort_insert]; [reflexivity|].
  destruct (cmp x y <=? 0); [reflexivity|].
  rewrite IH. apply perm_swap.
Qed.

Lemma sort_perm {A} (cmp : A -> A -> Z) (l : list A) : Permutation (sort cmp l) l.
Proof.
  induction l as [|x l IH]; cbn [sort]; [reflexivity|].
  rewrite sort_insert_perm, IH. reflexivity.
Qed.

Lemma sort_insert_sorted (x : string * Z) (l : list (string * Z)) :
  StronglySorted desc l -> StronglySorted desc (sort_insert by_points_desc x l).
Proof.
  induction 1 as [|y l Hs IH Hy]; cbn [sort_insert].
  - repeat constructor.
  - unfold by_points_desc at 1. destruct (Z.leb_spec (y.2 - x.2) 0) as [Hle|Hgt].
    + constructor; [constructor; assumption|].
      constructor; [unfold desc; lia|].
      eapply Forall_impl; [exact Hy|]. unfold desc. intros z Hz. lia.
    + constructor; [assumption|].
      rewrite sort_insert_perm. constructor; [unfold desc; lia | assumption].
Qed.

Lemma sort_sorted (l : list (string * Z)) : StronglySorted desc (sort by_points_desc l).
Proof.
  induction l as [|x l IH]; cbn [sort]; [constructor | apply sort_insert_sorted, IH].
Qed.

(** Entries with equal points keep their order. *)
Lemma sort_insert_stable (pts : Z) (x : string * Z) (l : list (string * Z)) :
  filter (fun e => e.2 = pts) (sort_insert by_points_desc x l)
    = filter (fun e => e.2 = pts) (x :: l).
Proof.
  induction l as [|y l IH]; cbn [sort_insert]; [reflexivity|].
  unfold by_points_desc at 1. destruct (Z.leb_spec (y.2 - x.2) 0) as [Hle|Hgt];
    [reflexivity|].
  rewrite (filter_cons _ y), IH, !filter_cons.
  repeat case_decide; try reflexivity. lia.
Qed.

Lemma sort_stable (pts : Z) (l : list (string * Z)) :
  filter (fun e => e.2 = pts) (sort by_points_desc l) = filter (fun e => e.2 = pts) l.
Proof.
  induction l as [|x l IH]; cbn [sort]; [reflexivity|].
  rewrite sort_insert_stable, !filter_cons, IH. reflexivity.
Qed.

(** A stable descending arrangement is unique, so every sort the language
    allows returns the list that [sort] computes. *)
Lemma stable_desc_unique (l1 l2 : list (string * Z)) :
  StronglySorted desc l1 -> StronglySorted desc l2 ->
  (forall pts, filter (fun e => e.2 = pts) l1 = filter (fun e => e.2 = pts) l2) ->
  l1 = l2.
Proof.
  revert l2. induction l1 as [|x l1 IH]; intros [|y l2] H1 H2 Hf; try reflexivity.
  - specialize (Hf y.2). rewrite filter_nil, filter_cons_True in Hf by reflexivity.
    discriminate.
  - specialize (Hf x.2). rewrite filter_nil, filter_cons_True in Hf by reflexivity.
    discriminate.
  - apply StronglySorted_inv in H1 as [H1 Hx]. apply StronglySorted_inv in H2 as [H2 Hy].
    assert (Hxy : x.2 <= y.2).
    { assert (Hin : x ∈ filter (fun e => e.2 = x.2) (y :: l2)).
      { rewrite <- Hf, filter_cons_True by reflexivity. left. }
      apply list_elem_of_filter in Hin as [_ Hin].
      apply elem_of_cons in Hin as [->|Hin]; [lia|].
      rewrite List.Forall_forall in Hy. apply Hy, list_elem_of_In, Hin. }
    assert (Hyx : y.2 <= x.2).
    { assert (Hin : y ∈ filter (fun e => e.2 = y.2) (x :: l1)).
      { rewrite Hf, filter_cons_True by reflexivity. left. }
      apply list_elem_of_filter in Hin as [_ Hin].
      apply elem_of_cons in Hin as [->|Hin]; [lia|].
      rewrite List.Forall_forall in Hx. apply Hx, list_elem_of_In, Hin. }
    pose proof (Hf x.2) as Hp.
    rewrite !filter_cons_True in Hp by lia. injection Hp as -> Hp.
    f_equal. apply IH; try assumption.
    intros pts. destruct (decide (pts = y.2)) as [->|Hne]; [assumption|].
    specialize (Hf pts). rewrite !filter_cons_False in Hf by congruence. assumption.
Qed.

(** C9. The entries are rendered in a stable descending order of points:
    the order is a rearrangement of the entries, points never go up along
    it, and entries with equal points stay in the order in which the Map
    holds them (that of their first scoring); no other arrangement has
    these properties.  Line [i], counted from 0, is
    numbered [i + 1].  The scores A 3, B 5, C 5 come out as B, C, A.  A
    scoreboard with no entry, or no session (as for the score command in a
    channel without one), renders as the fixed text. *)
Theorem scoreboard_order (fetch : string -> option string) (s : Session) :
  let sorted := sort by_points_desc (scoreboard s) in
  let lines := imap (score_line fetch) sorted in
  Permutation sorted (scoreboard s) /\
  StronglySorted desc sorted /\
  (forall pts, filter (fun e => e.2 = pts) sorted
               = filter (fun e => e.2 = pts) (scoreboard s)) /\
  (forall l, StronglySorted desc l ->
     (forall pts, filter (fun e => e.2 = pts) l
                  = filter (fun e => e.2 = pts) (scoreboard s)) ->
     l = sorted) /\
  (scoreboard s <> [] ->
   showScoreboard fetch (Some s)
     = "📊 **Scoreboard**" +:+ String Csv.LF "" +:+ Js.join (String Csv.LF "") lines) /\
  (forall i e, sorted !! i = Some e ->
   lines !! i
     = Some (pretty (i + 1)%nat +:+ ". **"
             +:+ match fetch e.1 with Some name => name | None => "User " +:+ e.1 end
             +:+ "** — " +:+ pretty e.2 +:+ " pts")) /\
  (scoreboard s = [] -> showScoreboard fetch (Some s) = NO_SCORES) /\
  showScoreboard fetch None = NO_SCORES /\
  (forall channelId w, session_at channelId w = None ->
     score fetch channelId w = mkRun w [Board NO_SCORES] None) /\
  map_set "C" 5 (map_set "B" 5 (map_set "A" 3 [])) = three_scores /\
  sort by_points_desc three_scores = [("B", 5); ("C", 5); ("A", 3)].
Proof.
  intros sorted lines. repeat split.
  - apply sort_perm.
  - apply sort_sorted.
  - intros pts. apply sort_stable.
  - intros l Hl Hf. apply stable_desc_unique; [assumption | apply sort_sorted |].
    intros pts. rewrite Hf. symmetry. apply sort_stable.
  - intros H. unfold showScoreboard. destruct (scoreboard s); [congruence | reflexivity].
  - intros i e H. unfold lines. rewrite list_lookup_imap, H. reflexivity.
  - intros H. unfold showScoreboard. rewrite H. reflexivity.
  - intros channelId w H. unfold score. rewrite H. reflexivity.
Qed.

Lemma scoreboard_order_witness :
  showScoreboard no_names (Some (mkSession 3 SAMPLE_BANK false true three_scores None))
    = "📊 **Scoreboard**" +:+ String Csv.LF "1. **User B** — 5 pts"
      +:+ String Csv.LF "2. **User C** — 5 pts"
      +:+ String Csv.LF "3. **User A** — 3 pts".
Proof.
  destruct (scoreboard_order no_names
              (mkSession 3 SAMPLE_BANK false true three_scores None))
    as (_ & _ & _ & _ & H & _).
  rewrite H; [reflexivity | discriminate].
Defined.

End Scoreboard.

(** ** The shuffle is not uniform *)

Section ShuffleFacts.
Import Shuffle.
Variable bits : nat.

Lemma length_values : length (values bits) = (2 ^ S bits)%nat.
Proof.
  unfold values, resolution, half. rewrite length_fmap, length_seq.
  rewrite <- (Nat2Z.id (2 ^ S bits)). f_equal.
  rewrite Nat2Z.inj_pow. change (Z.of_nat 2) with 2.
  rewrite (Nat2Z.inj_succ bits), Z.pow_succ_r by lia. reflexivity.
Qed.

(** There are [(2 * 2^bits)^k] sequences of [k] draws. *)
Lemma length_all_draws (k : nat) : length (all_draws bits k) = (2 ^ (S bits * k))%nat.
Proof.
  induction k as [|k IH].
  - rewrite Nat.mul_0_r. reflexivity.
  - cbn [all_draws]. generalize (values bits), length_values.
    intros vs Hvs.
    assert (H : forall l : list Z,
              length (l ≫= fun r => cons r <$> all_draws bits k)
              = (length l * 2 ^ (S bits * k))%nat).
    { induction l as [|r l IHl]; [reflexivity|].
      cbn [mbind list_bind]. rewrite length_app, length_fmap, IH.
      cbn [mbind] in IHl. rewrite IHl. simpl length. lia. }
    rewrite H, Hvs, <- Nat.pow_add_r. f_equal. lia.
Qed.

Lemma pow2_not_mult_3 (m w : nat) : (2 ^ m)%nat <> (3 * w)%nat.
Proof.
  revert w. induction m as [|m IH]; intros w; [simpl; lia|].
  rewrite Nat.pow_succ_r'. intros H. apply (IH (w / 2)%nat).
  revert H. generalize (2 ^ m)%nat. intros p H.
  assert (Hw : w = (2 * (w / 2))%nat).
  { pose proof (Nat.div_mod_eq w 2) as Hd.
    assert ((w mod 2 = 0)%nat \/ (w mod 2 = 1)%nat) as [Hm|Hm]
      by (pose proof (Nat.mod_upper_bound w 2); lia); lia. }
  lia.
Qed.

Lemma fact_mult_3 (n : nat) : (3 <= n)%nat -> exists f, fact n = (3 * f)%nat.
Proof.
  induction 1 as [|n Hn [f Hf]].
  - exists 2%nat. reflexivity.
  - exists (S n * f)%nat. cbn [fact]. rewrite Hf. lia.
Qed.

(** C3. Whatever comparisons the sort makes, and however many draws of
    whatever resolution it uses, the shuffle of three elements or more is
    not a uniform permutation: the orders cannot all come out in the same
    number of the equally likely draw sequences, a power of two not being a
    multiple of the number of orders.  For three elements not even the
    place of one element is uniform. *)
Theorem random_sort_not_uniform (t : Sorter) (k : nat) (n : nat) :
  ((3 <= n)%nat -> ~ uniform bits t k n) /\ ~ evenly_placed bits t k 3.
Proof.
  split.
  - intros Hn Hu. specialize (Hu (seq 0 n) (Permutation_refl _)).
    rewrite length_all_draws in Hu.
    destruct (fact_mult_3 _ Hn) as [f Hf]. rewrite Hf in Hu.
    apply (pow2_not_mult_3 (S bits * k) (ways bits t k (seq 0 n) * f)). lia.
  - intros He. specialize (He 0%nat 0%nat). rewrite length_all_draws in He.
    apply (pow2_not_mult_3 (S bits * k) (places bits t k 0 0)). lia.
Qed.

(** What the sort leaves is a rearrangement of the bank. *)
Lemma run_sound (n : nat) (t : Sorter) :
  sound n t -> forall draws order, run bits t draws = Some order ->
  Permutation (seq 0 n) order.
Proof.
  induction t as [o|neg IHn zero IHz pos IHp]; cbn [sound run].
  - intros H draws order [= <-]. assumption.
  - intros (Hn & Hz & Hp) [|r draws] order; [discriminate|].
    destruct (comparator bits r); eauto.
Qed.

Lemma reorder_seq {A} (pre l : list A) :
  omap (fun i => ((pre ++ l)%list) !! i) (seq (length pre) (length l)) = l.
Proof.
  revert pre. induction l as [|x l IH]; intros pre; [reflexivity|].
  cbn [length seq omap list_omap].
  rewrite list_lookup_middle by reflexivity. f_equal.
  specialize (IH (pre ++ [x])%list). rewrite <- app_assoc, length_app in IH.
  cbn [app length] in IH. rewrite Nat.add_1_r in IH. exact IH.
Qed.

Lemma sort_random_perm {A} (t : Sorter) (draws : list Z) (bankArr : list A) :
  sound (length bankArr) t -> Permutation bankArr (sort_random bits t draws bankArr).
Proof.
  intros Hs. unfold sort_random. destruct (run bits t draws) as [order|] eqn:Hr;
    [|reflexivity].
  unfold reorder. rewrite <- (run_sound _ _ Hs _ _ Hr).
  pose proof (reorder_seq [] bankArr) as H. cbn [app length] in H.
  rewrite H. reflexivity.
Qed.

End ShuffleFacts.

Section ShuffleWitnesses.
Import Shuffle.

Lemma random_sort_not_uniform_witness :
  ~ uniform 1 insertion3 3 (length SAMPLE_BANK).
Proof.
  apply (random_sort_not_uniform 1 insertion3 3 (length SAMPLE_BANK)). simpl. lia.
Defined.

(** With the insertion tree, two bits and three draws: the bank comes out
    unchanged in 16 of the 64 sequences and reversed in 8, and its first
    question ends first in 24 of them, last in 16. *)
Example insertion3_bias :
  sound 3 insertion3 /\
  length (all_draws 1 3) = 64%nat /\
  ways 1 insertion3 3 [0; 1; 2]%nat = 16%nat /\
  ways 1 insertion3 3 [2; 1; 0]%nat = 8%nat /\
  places 1 insertion3 3 0 0 = 24%nat /\
  places 1 insertion3 3 0 2 = 16%nat /\
  sort_random 1 insertion3 [0; 0; 0] SAMPLE_BANK = rev SAMPLE_BANK.
Proof.
  split.
  - cbn. repeat split; apply (bool_decide_unpack _); vm_compute; reflexivity.
  - vm_compute. repeat split.
Qed.

End ShuffleWitnesses.

Section CommandWitnesses.
Import Quiz.

Lemma stop_idempotent_witness :
  stop no_names "7" fresh_world = mkRun fresh_world [NoQuizRunning] None /\
  sent (stop no_names "42" running_world) = [QuizStopped] /\
  stop no_names "42" (world (stop no_names "42" running_world))
    = mkRun (world (stop no_names "42" running_world)) [NoQuizRunning] None.
Proof.
  split.
  - apply (stop_idempotent no_names "7" fresh_world). reflexivity.
  - destruct (stop_idempotent no_names "42" running_world) as [_ H].
    specialize (H 0%nat sepsis_window eq_refl eq_refl eq_refl). cbv zeta in H.
    destruct H as (H1 & _ & _ & _ & _ & _ & _ & _ & _ & H2 & _).
    split; assumption.
Defined.

Lemma stop_ignores_inactive_session_witness :
  let started := actuallyStart "42" SAMPLE_BANK None SAMPLE_BANK fresh_world in
  (active <$> session_at "42" (world started)) = Some false /\
  stop no_names "42" (world started) = mkRun (world started) [NoQuizRunning] None /\
  inactive 0 (world (resume no_names (PresentQuestion "42" 0) (world started))).
Proof.
  intros started. split; [reflexivity|]. split.
  - destruct (stop_ignores_inactive_session no_names "42" (world started)) as [H _].
    apply (H 0%nat (mkSession 0 SAMPLE_BANK false false [] None)); reflexivity.
  - destruct (stop_ignores_inactive_session no_names "42" fresh_world) as [_ H].
    destruct (H SAMPLE_BANK None SAMPLE_BANK) as (s & _ & _ & _ & _ & _ & _ & Hk & _);
      [discriminate | reflexivity |].
    apply Hk. discriminate.
Defined.

End CommandWitnesses.

(** ** Buttons *)

Section ButtonFacts.
Import Buttons.
Local Open Scope list_scope.

Lemma concat_nonempty {A} (l : list (list A)) :
  l <> [] -> Forall (fun c => (1 <= length c)%nat) l -> concat l <> [].
Proof.
  intros Hl Hf. destruct l as [|c l]; [congruence|].
  apply Forall_cons_iff in Hf as [Hc _]. destruct c; simpl in *; [lia | discriminate].
Qed.

Lemma chunk_loop_spec {A} (arr : list A) (size : nat) :
  (1 <= size)%nat ->
  forall fuel i out, (length arr - i <= fuel)%nat ->
  exists rest,
    chunk_loop fuel arr size i out = Some (out ++ rest)%list /\
    concat rest = drop i arr /\
    Forall (fun c => (1 <= length c <= size)%nat) rest /\
    (forall k c, rest !! k = Some c -> (S k < length rest)%nat -> length c = size) /\
    (length rest * size < length arr - i + size)%nat.
Proof.
  intros Hsize. induction fuel as [|fuel IH]; intros i out Hfuel; cbn [chunk_loop].
  - destruct (Nat.ltb_spec i (length arr)); [lia|].
    exists []. rewrite app_nil_r, drop_ge by lia.
    repeat split; auto; try (simpl; lia); intros k c Hk; discriminate.
  - destruct (Nat.ltb_spec i (length arr)) as [Hlt|Hge].
    + destruct (IH (i + size)%nat (out ++ [slice i (i + size) arr])) as
        (rest & Hrun & Hcat & Hall & Hfull & Hcount); [lia|].
      assert (Hslice : slice i (i + size) arr = take size (drop i arr))
        by (unfold slice; f_equal; lia).
      assert (Hlen : length (slice i (i + size) arr) = Nat.min size (length arr - i))
        by (rewrite Hslice, length_take, length_drop; reflexivity).
      exists (slice i (i + size) arr :: rest).
      rewrite Hrun, <- app_assoc. split; [reflexivity|]. split; [|split; [|split]].
      * cbn [concat]. rewrite Hcat, Hslice, <- drop_drop. apply take_drop.
      * constructor; [lia|]. assumption.
      * intros [|k] c Hk Hlast; cbn in Hk, Hlast.
        -- injection Hk as <-. rewrite Hlen.
           assert (Hne : drop (i + size) arr <> []).
           { rewrite <- Hcat. apply concat_nonempty.
             - destruct rest; [simpl in Hlast; lia | discriminate].
             - eapply Forall_impl; [exact Hall|]. intros ? ?. simpl in *. lia. }
           assert (i + size < length arr)%nat.
           { destruct (Nat.lt_ge_cases (i + size) (length arr)); [assumption|].
             exfalso. apply Hne, drop_ge. assumption. }
           lia.
        -- apply (Hfull k c Hk). lia.
      * simpl length. revert Hcount. generalize (length rest). intros n Hcount.
        rewrite Nat.mul_succ_l.
        destruct (Nat.le_gt_cases (i + size) (length arr)); [lia|].
        destruct n; [lia|]. rewrite Nat.mul_succ_l in Hcount. lia.
    + exists []. rewrite app_nil_r, drop_ge by lia.
      repeat split; auto; try (simpl; lia); intros k c Hk; discriminate.
Qed.

(** X1. For a size of at least 1, [chunk] returns, and what it returns cuts
    the array into consecutive pieces: joined again they give the array,
    each has between 1 and [size] elements, every piece but the last has
    exactly [size], and there are no more pieces than needed.  For a size
    of 0 and an array with an element the loop never ends. *)
Theorem chunk_partition {A} (arr : list A) (size : nat) :
  ((1 <= size)%nat ->
   exists out,
     chunk arr size = Some out /\
     concat out = arr /\
     Forall (fun c => (1 <= length c <= size)%nat) out /\
     (forall k c, out !! k = Some c -> (S k < length out)%nat -> length c = size) /\
     (length out * size < length arr + size)%nat) /\
  (arr <> [] -> forall fuel out, chunk_loop fuel arr 0 0 out = None).
Proof.
  split.
  - intros Hsize. unfold chunk.
    destruct (chunk_loop_spec arr size Hsize (length arr) 0%nat []) as
      (rest & Hrun & Hcat & Hall & Hfull & Hcount); [lia|].
    exists rest. rewrite Nat.sub_0_r in Hcount. auto.
  - intros Hne. induction fuel as [|fuel IH]; intros out; cbn [chunk_loop];
      destruct (Nat.ltb_spec 0 (length arr)) as [Hlt|Hge]; auto.
    + destruct arr; [congruence | simpl in Hge; lia].
    + destruct arr; [congruence | simpl in Hge; lia].
Qed.

Lemma chunk_partition_witness :
  chunk [1; 2; 3; 4; 5; 6; 7] 3 = Some [[1; 2; 3]; [4; 5; 6]; [7]].
Proof.
  destruct (chunk_partition [1; 2; 3; 4; 5; 6; 7] 3) as [H _].
  destruct H as (out & Hrun & _); [lia|].
  rewrite Hrun. f_equal. vm_compute in Hrun. injection Hrun as <-. reflexivity.
Defined.

(** X2. The buttons of a question come back in rows of 1 to 5, one button
    per option in the order of the options, option [i] with the id [opt_i]
    and the [i]th capital letter as its label; a question with at most 25
    options takes at most 5 rows. *)
Theorem buildButtons_grid (x : Question) :
  exists rows,
    buildButtons x = Some rows /\
    Forall (fun row => (1 <= length row <= 5)%nat) rows /\
    length (concat rows) = length (options x) /\
    (forall i o, options x !! i = Some o ->
       concat rows !! i = Some (mkButton ("opt_" +:+ pretty i) (fromCharCode (65 + i)))) /\
    ((length (options x) <= 25)%nat -> (length rows <= 5)%nat).
Proof.
  unfold buildButtons, chunk.
  destruct (chunk_loop_spec (imap (@button string) (options x)) 5 ltac:(lia)
              (length (imap (@button string) (options x))) 0%nat [])
    as (rows & Hrun & Hcat & Hall & _ & Hcount); [lia|].
  cbn [app] in Hrun. rewrite drop_0 in Hcat. rewrite Nat.sub_0_r in Hcount.
  exists rows. rewrite Hcat, length_imap in *. repeat split; auto.
  - intros i o Ho. rewrite list_lookup_imap, Ho. reflexivity.
  - intros Hle. lia.
Qed.

(** *** Decimal numbers *)

Lemma pretty_N_char_digit (d : N) :
  (d < 10)%N ->
  Js.is_digit (pretty_N_char d) = true /\
  Z.of_nat (nat_of_ascii (pretty_N_char d) - 48) = Z.of_N d.
Proof.
  intros Hd.
  assert (d = 0 \/ d = 1 \/ d = 2 \/ d = 3 \/ d = 4 \/ d = 5 \/ d = 6 \/ d = 7
          \/ d = 8 \/ d = 9)%N as H by lia.
  repeat (destruct H as [->|H]; [split; reflexivity|]). subst. split; reflexivity.
Qed.

Lemma pretty_N_go_digits (x : N) :
  forall s,
    (Js.all_chars Js.is_digit s = true ->
     Js.all_chars Js.is_digit (pretty_N_go x s) = true) /\
    (s <> "" -> pretty_N_go x s <> "") /\
    Js.digits_value (pretty_N_go x s) 0 = Js.digits_value s (Z.of_N x).
Proof.
  induction (N.lt_wf_0 x) as [x _ IH]. intros s.
  destruct (N.eq_dec x 0%N) as [->|Hx].
  - rewrite pretty_N_go_0. auto.
  - rewrite pretty_N_go_step by lia.
    assert (Hd : (x `mod` 10 < 10)%N) by (apply N.mod_lt; lia).
    destruct (pretty_N_char_digit _ Hd) as [Hdig Hval].
    destruct (IH (x `div` 10)%N (N.div_lt x 10 ltac:(lia) ltac:(lia))
                (String (pretty_N_char (x `mod` 10)) s)) as (Ha & Hn & Hv).
    split; [|split].
    + intros Hs. apply Ha. cbn [Js.all_chars]. rewrite Hdig, Hs. reflexivity.
    + intros _. apply Hn. discriminate.
    + rewrite Hv. cbn [Js.digits_value]. rewrite Hval. f_equal.
      pose proof (N.div_mod x 10). lia.
Qed.

Lemma pretty_nat_digits (n : nat) :
  Js.all_chars Js.is_digit (pretty n) = true /\
  pretty n <> "" /\
  Js.digits_value (pretty n) 0 = Z.of_nat n.
Proof.
  unfold pretty, pretty_nat, pretty, pretty_N.
  destruct (decide (N.of_nat n = 0%N)) as [H0|Hn].
  - repeat split; [discriminate | simpl; lia].
  - rewrite pretty_N_go_step by lia.
    assert (Hd : (N.of_nat n `mod` 10 < 10)%N) by (apply N.mod_lt; lia).
    destruct (pretty_N_char_digit _ Hd) as [Hdig Hval].
    destruct (pretty_N_go_digits (N.of_nat n `div` 10)
                (String (pretty_N_char (N.of_nat n `mod` 10)) "")) as (Ha & Hne & Hv).
    split; [|split].
    + apply Ha. cbn [Js.all_chars]. rewrite Hdig. reflexivity.
    + apply Hne. discriminate.
    + rewrite Hv. cbn [Js.digits_value]. rewrite Hval.
      pose proof (N.div_mod (N.of_nat n) 10). lia.
Qed.

Lemma digit_facts (c : ascii) :
  Js.is_digit c = true ->
  Js.is_ws c = false /\ c <> "_"%char /\ Ascii.eqb c "-"%char = false /\
  Ascii.eqb c "+"%char = false.
Proof.
  intros H. unfold Js.is_digit in H. apply andb_true_iff in H as [H1 H2].
  apply Nat.leb_le in H1, H2.
  assert (Hne : forall d, nat_of_ascii d <> nat_of_ascii c -> c <> d) by (intros d Hd ->; auto).
  repeat split.
  - unfold Js.is_ws. apply orb_false_iff. split.
    + apply andb_false_iff. right. apply Nat.leb_gt. lia.
    + apply Nat.eqb_neq. lia.
  - apply Hne. change (nat_of_ascii "_") with 95%nat. lia.
  - apply Ascii.eqb_neq, Hne. change (nat_of_ascii "-") with 45%nat. lia.
  - apply Ascii.eqb_neq, Hne. change (nat_of_ascii "+") with 43%nat. lia.
Qed.

Lemma digits_no_underscore (s : string) :
  Js.all_chars Js.is_digit s = true -> Js.includes "_" s = false.
Proof.
  induction s as [|c s IH]; [reflexivity|].
  cbn [Js.all_chars Js.includes String.prefix]. intros H.
  apply andb_true_iff in H as [Hc Hs]. rewrite (IH Hs).
  destruct (digit_facts c Hc) as (_ & Hu & _).
  destruct (ascii_dec "_" c) as [<-|_]; [congruence | reflexivity].
Qed.

Lemma leading_digits_all (s : string) :
  Js.all_chars Js.is_digit s = true -> leading_digits s = s.
Proof.
  induction s as [|c s IH]; [reflexivity|].
  cbn [Js.all_chars leading_digits]. intros H.
  apply andb_true_iff in H as [Hc Hs]. rewrite Hc, (IH Hs). reflexivity.
Qed.

Lemma parseInt_digits (s : string) :
  Js.all_chars Js.is_digit s = true -> s <> "" ->
  parseInt s = Some (Js.digits_value s 0).
Proof.
  intros Hs Hne. destruct s as [|c s]; [congruence|].
  pose proof Hs as Hall. cbn [Js.all_chars] in Hs. apply andb_true_iff in Hs as [Hc _].
  destruct (digit_facts c Hc) as (Hw & _ & Hm & Hp).
  unfold parseInt. cbn [Js.trimStart]. rewrite Hw, Hm, Hp. cbn [fst snd].
  rewrite (leading_digits_all _ Hall). cbn [Js.truthy]. f_equal. lia.
Qed.

(** *** Letters *)

Lemma letter_facts (i : nat) :
  (i < 26)%nat ->
  let c := ascii_of_nat (65 + i) in
  Js.upper_char c = c /\ Ascii.eqb c ","%char = false /\ c <> ";"%char /\
  Js.is_ws c = false /\ Js.is_upper c = true /\
  Z.of_nat (nat_of_ascii c) - 65 = Z.of_nat i.
Proof.
  intros Hi.
  do 26 (destruct i as [|i]; [vm_compute; repeat split; discriminate|]). lia.
Qed.

Lemma answer_tokens_letter (c : ascii) (rest : string) :
  Js.upper_char c = c -> Ascii.eqb c ","%char = false -> c <> ";"%char ->
  Js.is_ws c = false ->
  answer_tokens (String c EmptyString) = [String c EmptyString] /\
  answer_tokens (String c (String ","%char (String " "%char rest)))
    = String c EmptyString :: answer_tokens rest.
Proof.
  intros Hu Hc Hs Hw. unfold answer_tokens, Js.toUpperCase, Js.replace_char, Js.split.
  cbn [Js.map_chars]. rewrite !Hu, !Hc.
  change (Js.upper_char ","%char) with ","%char.
  change (Js.upper_char " "%char) with " "%char.
  change (Ascii.eqb ","%char ","%char) with true.
  change (Ascii.eqb " "%char ","%char) with false. cbv iota.
  cbn [Js.split_go String.prefix String.length Nat.sub].
  destruct (ascii_dec ";" c) as [<-|_]; [congruence|].
  destruct (ascii_dec ";" ";") as [_|H]; [|congruence].
  destruct (ascii_dec ";" " ") as [H|_]; [discriminate|].
  cbn [fst snd map].
  assert (Ht : Js.trim (String c "") = String c "")
    by (unfold Js.trim; cbn [Js.trimStart]; rewrite Hw; cbn [Js.trimEnd]; rewrite Hw; reflexivity).
  rewrite Ht. split; [reflexivity|].
  rewrite filter_cons_True by reflexivity. reflexivity.
Qed.

Lemma answer_tokens_letters (idxs : list nat) :
  Forall (fun i => (i < 26)%nat) idxs ->
  answer_tokens (lettersCorrect idxs) = map (fun i => fromCharCode (65 + i)) idxs.
Proof.
  unfold lettersCorrect, Js.join.
  induction 1 as [|i idxs Hi Hall IH]; [reflexivity|].
  destruct (letter_facts i Hi) as (Hu & Hc & Hs & Hw & _).
  pose proof (fun rest => answer_tokens_letter _ rest Hu Hc Hs Hw) as Hl.
  destruct idxs as [|j idxs]; [exact (proj1 (Hl EmptyString))|].
  change (String.concat ", " (map (fun i => fromCharCode (65 + i)) (i :: j :: idxs)))
    with (String (ascii_of_nat (65 + i)) (String ","%char (String " "%char
            (String.concat ", " (map (fun i => fromCharCode (65 + i)) (j :: idxs)))))).
  rewrite (proj2 (Hl _)), IH. reflexivity.
Qed.

(** X3. What the bot writes it reads back.  The id of the button of option
    [i] carries [i] as the choice of a press.  The letters of a list of
    option positions below 26, joined as the verdict prints them, decode to
    that list as an answer cell. *)
Theorem button_round_trips :
  (forall (i : nat) (o : string),
     choice_of (customId (button i o)) = Some (Z.of_nat i)) /\
  (forall idxs, Forall (fun i => (i < 26)%nat) idxs ->
     Csv.lettersToIdxArray (lettersCorrect idxs) = map Z.of_nat idxs).
Proof.
  split.
  - intros i o. cbn [button customId].
    destruct (pretty_nat_digits i) as (Hd & Hne & Hv).
    unfold choice_of, Js.split.
    change ("opt_" +:+ pretty i) with (String "o" (String "p" (String "t" (String "_" (pretty i))))).
    cbn [Js.split_go String.prefix String.length Nat.sub].
    destruct (ascii_dec "_" "o") as [H|_]; [discriminate|].
    destruct (ascii_dec "_" "p") as [H|_]; [discriminate|].
    destruct (ascii_dec "_" "t") as [H|_]; [discriminate|].
    destruct (ascii_dec "_" "_") as [_|H]; [|congruence].
    rewrite (split_go_no_sep _ _ (digits_no_underscore _ Hd)). cbn [fst snd].
    assert (Hp : String.prefix "" (pretty i) = true) by (destruct (pretty i); reflexivity).
    rewrite Hp. cbn [snd].
    rewrite (parseInt_digits _ Hd Hne), Hv. reflexivity.
  - intros idxs Hall.
    change (Csv.lettersToIdxArray (lettersCorrect idxs))
      with (Csv.int_nonneg (map Csv.decode_token (answer_tokens (lettersCorrect idxs)))).
    rewrite (answer_tokens_letters idxs Hall).
    induction Hall as [|i idxs Hi Hall IH]; [reflexivity|].
    destruct (letter_facts i Hi) as (_ & _ & _ & _ & Hup & Hval).
    cbn [map]. unfold Csv.int_nonneg in *. cbn [omap list_omap].
    unfold Csv.decode_token at 1, fromCharCode at 1. cbn [Csv.is_one_upper].
    rewrite Hup.
    change (Csv.charCodeAt0 (fromCharCode (65 + i)))
      with (Z.of_nat (nat_of_ascii (ascii_of_nat (65 + i)))).
    rewrite Hval.
    destruct (Z.leb_spec 0 (Z.of_nat i)); [|lia]. f_equal. exact IH.
Qed.

Lemma button_round_trips_witness :
  Csv.lettersToIdxArray (lettersCorrect [0; 2; 25]%nat) = [0; 2; 25].
Proof.
  apply (proj2 button_round_trips [0; 2; 25]%nat).
  repeat constructor.
Defined.

End ButtonFacts.

(** ** Rows and cells *)

Section RowFacts.
Import Csv Quoting.
Local Open Scope list_scope.

Lemma append_cons (c : ascii) (a b : string) : String c a +:+ b = String c (a +:+ b).
Proof. reflexivity. Qed.

Lemma append_nil_r (s : string) : s +:+ "" = s.
Proof.
  induction s as [|c s IH]; [reflexivity | rewrite append_cons; f_equal; exact IH].
Qed.

Lemma append_assoc (a b c : string) : (a +:+ b) +:+ c = a +:+ (b +:+ c).
Proof.
  induction a as [|x a IH]; [reflexivity | rewrite !append_cons; f_equal; exact IH].
Qed.

Lemma push_char_append (cur : string) (c : ascii) (s : string) :
  push_char cur c +:+ s = cur +:+ String c s.
Proof. unfold push_char. rewrite append_assoc. reflexivity. Qed.

Lemma parse_quoted_body (f rest : string) :
  (forall c r, rest = String c r -> c <> dquote) ->
  forall out cur,
    parseCsvRow_go (escape f +:+ String dquote rest) out cur true
    = parseCsvRow_go rest out (cur +:+ f) false.
Proof.
  intros Hrest. induction f as [|c f IH]; intros out cur.
  - cbn [escape]. change ("" +:+ String dquote rest) with (String dquote rest).
    cbn [parseCsvRow_go]. rewrite Ascii.eqb_refl, append_nil_r.
    destruct rest as [|c r]; [reflexivity|].
    assert (Hc : Ascii.eqb c dquote = false) by (apply Ascii.eqb_neq; eauto).
    rewrite Hc. reflexivity.
  - cbn [escape]. destruct (Ascii.eqb c dquote) eqn:Hc.
    + apply Ascii.eqb_eq in Hc. subst c.
      rewrite !append_cons. cbn [parseCsvRow_go]. rewrite !Ascii.eqb_refl. cbn [andb].
      rewrite IH, push_char_append. reflexivity.
    + rewrite append_cons. cbn [parseCsvRow_go]. rewrite Hc, andb_false_r.
      rewrite IH, push_char_append. reflexivity.
Qed.

Lemma parse_quoted (f rest : string) :
  (forall c r, rest = String c r -> c <> dquote) ->
  forall out cur,
    parseCsvRow_go (quoted f +:+ rest) out cur false
    = parseCsvRow_go rest out (cur +:+ f) false.
Proof.
  intros Hrest out cur. unfold quoted.
  rewrite append_cons, append_assoc, append_cons.
  change ("" +:+ rest) with rest. cbn [parseCsvRow_go]. rewrite Ascii.eqb_refl.
  rewrite <- (parse_quoted_body f rest Hrest out cur).
  destruct (escape f +:+ String dquote rest); reflexivity.
Qed.

Lemma parse_quoted_line (fields : list string) :
  fields <> [] ->
  forall out, parseCsvRow_go (quoted_line fields) out "" false = out ++ fields.
Proof.
  unfold quoted_line, Js.join.
  induction fields as [|f fields IH]; [congruence|]. intros _ out.
  destruct fields as [|g fields].
  - cbn [map String.concat]. rewrite <- (append_nil_r (quoted f)).
    rewrite parse_quoted by (intros c r H; discriminate). reflexivity.
  - change (String.concat "," (map quoted (f :: g :: fields)))
      with (quoted f +:+ String "," (String.concat "," (map quoted (g :: fields)))).
    rewrite parse_quoted by (intros c r H; injection H as <- _; discriminate).
    cbn [parseCsvRow_go].
    change (Ascii.eqb "," dquote) with false. change (Ascii.eqb "," ",") with true.
    cbn [andb negb]. rewrite IH by discriminate. rewrite <- app_assoc. reflexivity.
Qed.

(** X4. A line of quoted fields, the double quotes of each field written
    twice and the fields joined by commas, is read back as those fields,
    whatever commas, quotes and spaces they hold. *)
Theorem parseCsvRow_quoted (fields : list string) :
  fields <> [] -> parseCsvRow (quoted_line fields) = fields.
Proof.
  intros H. unfold parseCsvRow. rewrite (parse_quoted_line fields H). reflexivity.
Qed.

Lemma parseCsvRow_quoted_witness :
  parseCsvRow (quoted_line ["Is water wet, or not?"; String dquote "A"; ""; " b "])
    = ["Is water wet, or not?"; String dquote "A"; ""; " b "].
Proof. apply parseCsvRow_quoted. discriminate. Defined.

Lemma parse_plain (line : string) :
  Js.includes (String dquote "") line = false ->
  forall out cur,
    parseCsvRow_go line out cur false
    = out ++ (cur +:+ (Js.split_go "," line 0).1) :: (Js.split_go "," line 0).2.
Proof.
  induction line as [|c line IH]; intros Hq out cur.
  - cbn. rewrite append_nil_r. reflexivity.
  - cbn [Js.includes String.prefix] in Hq. apply orb_false_iff in Hq as [Hc Hq].
    assert (Hd : Ascii.eqb c dquote = false).
    { apply Ascii.eqb_neq. intros ->.
      destruct (ascii_dec dquote dquote); [|congruence].
      destruct line; discriminate. }
    cbn [parseCsvRow_go Js.split_go String.prefix String.length Nat.sub]. rewrite Hd.
    destruct (Ascii.eqb_spec c ",") as [->|Hne].
    + cbn [andb negb]. destruct (ascii_dec "," ",") as [_|H]; [|congruence].
      assert (Hp : String.prefix "" line = true) by (destruct line; reflexivity).
      rewrite Hp, (IH Hq). cbn [fst snd].
      rewrite append_nil_r, <- app_assoc. reflexivity.
    + cbn [andb]. destruct (ascii_dec "," c) as [<-|_]; [congruence|].
      rewrite (IH Hq). cbn [fst snd]. rewrite push_char_append. reflexivity.
Qed.

Lemma parseCsvRow_go_nonempty (n : nat) :
  forall line, (String.length line <= n)%nat ->
  forall out cur inQ, parseCsvRow_go line out cur inQ <> [].
Proof.
  induction n as [|n IH]; intros line Hn out cur inQ.
  - destruct line; [|simpl in Hn; lia]. cbn. destruct out; discriminate.
  - destruct line as [|c line]; [cbn; destruct out; discriminate|].
    cbn [String.length] in Hn. cbn [parseCsvRow_go].
    destruct (Ascii.eqb c dquote).
    + destruct line as [|d line]; [apply IH; simpl; lia|].
      cbn [String.length] in Hn.
      destruct (inQ && Ascii.eqb d dquote); apply IH; cbn [String.length]; lia.
    + destruct (Ascii.eqb c "," && negb inQ); apply IH; lia.
Qed.

(** X5. A line with no double quote in it is cut at its commas, as
    [split(',')] would cut it; and whatever the line, the parser returns at
    least one field. *)
Theorem parseCsvRow_plain (line : string) :
  (Js.includes (String dquote "") line = false ->
   parseCsvRow line = Js.split "," line) /\
  parseCsvRow line <> [].
Proof.
  split.
  - intros H. unfold parseCsvRow, Js.split. rewrite (parse_plain line H). reflexivity.
  - apply (parseCsvRow_go_nonempty (String.length line)). lia.
Qed.

Lemma parseCsvRow_plain_witness :
  parseCsvRow "question,correct,,a, b" = ["question"; "correct"; ""; "a"; " b"].
Proof.
  rewrite (proj1 (parseCsvRow_plain "question,correct,,a, b") eq_refl). reflexivity.
Defined.

(** *** Trimming *)











(** *** What a parse returns *)





(** *** Answer cells, again *)





End RowFacts.

(** ** Banks on disk *)

Section PersistFacts.
Import Persist.
Local Open Scope list_scope.

Lemma substring_length (n : nat) (s : string) :
  String.length (String.substring 0 n s) = Nat.min n (String.length s).
Proof.
  revert n. induction s as [|c s IH]; intros [|n]; cbn; try reflexivity.
  rewrite IH. reflexivity.
Qed.

Lemma substring_all_chars (p : ascii -> bool) (n : nat) (s : string) :
  Js.all_chars p s = true -> Js.all_chars p (String.substring 0 n s) = true.
Proof.
  revert n. induction s as [|c s IH]; intros [|n]; cbn; try reflexivity.
  intros H. apply andb_true_iff in H as [Hc Hs]. rewrite Hc, (IH n Hs). reflexivity.
Qed.

Lemma substring_whole (n : nat) (s : string) :
  (String.length s <= n)%nat -> String.substring 0 n s = s.
Proof.
  revert n. induction s as [|c s IH]; intros [|n]; cbn; try reflexivity; try lia.
  intros H. rewrite IH by lia. reflexivity.
Qed.

Lemma map_chars_fixed (f : ascii -> ascii) (p : ascii -> bool) (s : string) :
  (forall c, p c = true -> f c = c) -> Js.all_chars p s = true -> Js.map_chars f s = s.
Proof.
  intros Hf. induction s as [|c s IH]; cbn; [reflexivity|]. intros H.
  apply andb_true_iff in H as [Hc Hs]. rewrite (Hf c Hc), (IH Hs). reflexivity.
Qed.

Lemma map_chars_all (f : ascii -> ascii) (p : ascii -> bool) (s : string) :
  (forall c, p (f c) = true) -> Js.all_chars p (Js.map_chars f s) = true.
Proof.
  intros Hf. induction s as [|c s IH]; cbn; [reflexivity|]. rewrite Hf, IH. reflexivity.
Qed.

Lemma map_chars_length (f : ascii -> ascii) (s : string) :
  String.length (Js.map_chars f s) = String.length s.
Proof. induction s as [|c s IH]; cbn; [reflexivity | rewrite IH; reflexivity]. Qed.

Lemma safe_replaced (c : ascii) : is_safe (if is_safe c then c else "_"%char) = true.
Proof. destruct (is_safe c) eqn:E; [exact E | reflexivity]. Qed.

Lemma safe_char_facts (c : ascii) :
  is_safe c = true -> is_line_end c = false /\ Ascii.eqb c "/" = false /\
                      Ascii.eqb c "\" = false.
Proof. destruct c as [[] [] [] [] [] [] [] []]; vm_compute; intros; auto; discriminate. Qed.

Lemma safeName_all_safe (name : string) : Js.all_chars is_safe (safeName name) = true.
Proof. apply substring_all_chars, map_chars_all, safe_replaced. Qed.

Lemma all_safe_no_slash (s : string) :
  Js.all_chars is_safe s = true -> Js.includes "/" s = false /\ Js.includes "\" s = false.
Proof.
  induction s as [|c s IH]; [split; reflexivity|].
  cbn [Js.all_chars Js.includes String.prefix]. intros H.
  apply andb_true_iff in H as [Hc Hs]. destruct (IH Hs) as [H1 H2]. rewrite H1, H2.
  destruct (safe_char_facts c Hc) as (_ & Hs1 & Hs2).
  apply Ascii.eqb_neq in Hs1, Hs2.
  destruct (ascii_dec "/" c) as [<-|_]; [congruence|].
  destruct (ascii_dec "\" c) as [<-|_]; [congruence|]. split; reflexivity.
Qed.

Lemma safeName_length (name : string) :
  String.length (safeName name) = Nat.min 80 (String.length name).
Proof. unfold safeName. rewrite substring_length, map_chars_length. reflexivity. Qed.

(** X8. A sanitised name is the name cut to 80 characters with every
    character other than a letter, a digit, [_], [-] and [.] replaced by
    [_]: it has the length of the name or 80, no slash or backslash, and
    sanitising it again changes nothing; a name of at most 80 characters
    that is safe already is kept as it is. *)
Theorem safeName_safe (name : string) :
  String.length (safeName name) = Nat.min 80 (String.length name) /\
  Js.all_chars is_safe (safeName name) = true /\
  Js.includes "/" (safeName name) = false /\
  Js.includes "\" (safeName name) = false /\
  safeName (safeName name) = safeName name /\
  (Js.all_chars is_safe name = true -> (String.length name <= 80)%nat ->
   safeName name = name).
Proof.
  assert (Hfix : forall s, Js.all_chars is_safe s = true -> (String.length s <= 80)%nat ->
                           safeName s = s).
  { intros s Hs Hl. unfold safeName.
    rewrite (map_chars_fixed _ is_safe) by (auto; intros c ->; reflexivity).
    apply substring_whole, Hl. }
  pose proof (safeName_length name) as Hlen.
  pose proof (safeName_all_safe name) as Hall.
  destruct (all_safe_no_slash _ Hall) as [H1 H2].
  repeat split; auto. apply Hfix; [assumption | lia].
Qed.

Lemma safeName_safe_witness : safeName "week-1_quiz.v2" = "week-1_quiz.v2".
Proof.
  destruct (safeName_safe "week-1_quiz.v2") as (_ & _ & _ & _ & _ & H).
  apply H; [reflexivity | simpl; lia].
Defined.

Lemma span_digits_append (guildId rest : string) :
  Js.all_chars Js.is_digit guildId = true ->
  span_digits (guildId +:+ String "_" rest) = (guildId, String "_" rest).
Proof.
  induction guildId as [|c g IH]; [reflexivity|].
  cbn [Js.all_chars]. intros H. apply andb_true_iff in H as [Hc Hg].
  rewrite append_cons. cbn [span_digits]. rewrite Hc, (IH Hg). reflexivity.
Qed.

Lemma append_length (a b : string) :
  String.length (a +:+ b) = (String.length a + String.length b)%nat.
Proof.
  induction a as [|c a IH]; [reflexivity|]. rewrite append_cons. cbn. rewrite IH. reflexivity.
Qed.

Lemma body_name_append (x : string) :
  x <> "" -> Js.all_chars (fun c => negb (is_line_end c)) x = true ->
  body_name (x +:+ ".json") = Some x.
Proof.
  induction x as [|c x IH]; [congruence|]. intros _ H.
  cbn [Js.all_chars] in H. apply andb_true_iff in H as [Hc Hx].
  apply negb_true_iff in Hc. rewrite append_cons. cbn [body_name]. rewrite Hc.
  destruct x as [|d x].
  - reflexivity.
  - assert (Hne : String.eqb (Js.toLowerCase (String d x +:+ ".json")) ".json" = false).
    { apply String.eqb_neq. intros E. apply (f_equal String.length) in E.
      unfold Js.toLowerCase in E. rewrite map_chars_length, append_length in E.
      cbn in E. lia. }
    rewrite Hne, IH by (assumption || discriminate). reflexivity.
Qed.

(** X9. The file name under which a bank is saved is read back by the
    loader as the guild and the sanitised bank name, for every guild id of
    digits and every bank name that is not empty. *)
Theorem bank_file_round_trip (guildId bankName : string) :
  guildId <> "" -> Js.all_chars Js.is_digit guildId = true -> bankName <> "" ->
  match_bank_file (bank_file guildId bankName) = Some (guildId, safeName bankName).
Proof.
  intros Hg Hd Hn. unfold match_bank_file, bank_file.
  change ("__" +:+ safeName bankName +:+ ".json")
    with (String "_" (String "_" (safeName bankName +:+ ".json"))).
  rewrite (span_digits_append _ _ Hd). cbn [fst snd].
  destruct guildId; [congruence|]. cbn [Js.truthy].
  change (Ascii.eqb "_" "_") with true. cbn [andb].
  rewrite body_name_append; [reflexivity | |].
  - intros E. apply (f_equal String.length) in E.
    rewrite (safeName_length bankName) in E.
    destruct bankName; [congruence | cbn in E; lia].
  - pose proof (safeName_all_safe bankName) as Hs. revert Hs.
    generalize (safeName bankName). intros s. induction s as [|c s IH]; [reflexivity|].
    cbn [Js.all_chars]. intros H. apply andb_true_iff in H as [Hc Hs].
    destruct (safe_char_facts c Hc) as (-> & _). rewrite (IH Hs). reflexivity.
Qed.

Lemma bank_file_round_trip_witness :
  match_bank_file (bank_file "123456" "my bank/../x?.csv")
    = Some ("123456", "my_bank_.._x_.csv").
Proof.
  rewrite (bank_file_round_trip "123456" "my bank/../x?.csv");
    [reflexivity | discriminate | reflexivity | discriminate].
Defined.

End PersistFacts.

(** ** Skipping, stopping and ending *)

Section FlowFacts.
Import Quiz Flow.
Local Open Scope list_scope.
Variable fetch : string -> option string.

Lemma update_at (r : nat) (f : Session -> Session) (w : World) (s : Session) :
  heap w !! r = Some s -> update r f w = with_session r (f s) w.
Proof. intros H. unfold update. rewrite H. reflexivity. Qed.

Lemma heap_with_session (r : nat) (s s' : Session) (w : World) :
  heap w !! r = Some s -> heap (with_session r s' w) !! r = Some s'.
Proof.
  intros H. unfold with_session. cbn [heap set_heap].
  apply list_lookup_insert_eq. eapply lookup_lt_Some, H.
Qed.

Lemma with_session_twice (r : nat) (s1 s2 : Session) (w : World) :
  with_session r s2 (with_session r s1 w) = with_session r s2 w.
Proof.
  unfold with_session. cbn [heap set_heap sessions banks lastBank].
  rewrite list_insert_insert_eq. reflexivity.
Qed.

Lemma drop_cons_inv {A} (l qs : list A) (i : nat) (x : A) :
  drop i l = x :: qs -> l !! i = Some x /\ drop (S i) l = qs.
Proof.
  intros H. split.
  - rewrite <- (Nat.add_0_r i), <- lookup_drop, H. reflexivity.
  - rewrite <- (Nat.add_1_r i), <- drop_drop, H. reflexivity.
Qed.

Lemma settle_present (channelId : string) (r : nat) (qs : list Question) :
  forall i fuel w s,
    heap w !! r = Some s -> index s = i -> drop i (bank s) = qs -> qs <> [] ->
    (length qs + 2 <= fuel)%nat ->
    settle fetch fuel (PresentQuestion channelId r) w
    = Some (match (scan qs i).2 with
            | Some (j, x) =>
                (with_session r (open_session j s) w,
                 (scan qs i).1 ++ [Ask j (length (bank s)) x])
            | None =>
                (set_sessions (delete channelId (sessions w))
                   (with_session r (ended_session s) w),
                 (scan qs i).1 ++ [Board (showScoreboard fetch (Some (ended_session s)))])
            end).
Proof.
  induction qs as [|x qs IH]; [congruence|].
  intros i fuel w s Hr Hi Hd _ Hfuel. subst i.
  destruct (drop_cons_inv _ _ _ _ Hd) as [Hx Hd'].
  destruct fuel as [|[|fuel]]; [simpl in Hfuel; lia | simpl in Hfuel; lia|].
  assert (Hrun : presentQuestion channelId r w
                 = if bool_decide (validateQuestion x = [])
                   then mkRun w [Ask (index s) (length (bank s)) x]
                          (Some (OpenWindow channelId r))
                   else mkRun w [Skipping (validateQuestion x)] (Some (AfterSkip channelId r))).
  { unfold presentQuestion. rewrite Hr, Hx. reflexivity. }
  cbn [settle resume scan]. rewrite Hrun.
  destruct (bool_decide (validateQuestion x = [])) eqn:Hv;
    cbn [next world sent fst snd settle resume].
  - unfold openWindow. rewrite (update_at _ _ _ _ Hr). reflexivity.
  - set (s1 := set_index (S (index s)) s).
    assert (Hw1 : update r (fun s0 => set_index (S (index s0)) s0) w = with_session r s1 w)
      by exact (update_at r (fun s0 => set_index (S (index s0)) s0) w s Hr).
    assert (Hr1 : heap (with_session r s1 w) !! r = Some s1)
      by apply (heap_with_session _ _ _ _ Hr).
    assert (Hlen : length (x :: qs) = (length (bank s) - index s)%nat)
      by (rewrite <- Hd; apply length_drop).
    cbn [length] in Hlen, Hfuel.
    unfold advance. rewrite Hw1, Hr1. cbn [index bank s1 set_index].
    destruct (Nat.ltb_spec (S (index s)) (length (bank s))) as [Hlt|Hge].
    + destruct qs as [|y qs]; [simpl in Hlen; lia|].
      pose proof (IH (S (index s)) (S fuel) (with_session r s1 w) s1 Hr1 eq_refl Hd') as IH'.
      cbn [settle resume] in IH'. rewrite IH' by (discriminate || (cbn [length] in *; lia)).
      cbn [scan]. cbn [bank s1 set_index].
      destruct (bool_decide (validateQuestion y = [])); cbn [fst snd].
      * rewrite with_session_twice. reflexivity.
      * destruct (scan qs (S (S (index s)))).2 as [[j z]|];
          rewrite with_session_twice; reflexivity.
    + destruct qs as [|y qs]; [|simpl in Hlen; lia].
      unfold finish. rewrite (update_at _ _ _ _ Hr1), with_session_twice.
      rewrite (heap_with_session _ _ _ _ Hr).
      assert (He : set_active false s1 = ended_session s).
      { unfold ended_session, s1, set_active, set_index. cbn. f_equal.
        simpl in Hlen. lia. }
      rewrite He. cbn [next world sent settle resume scan fst snd].
      destruct fuel; [simpl in Hfuel; lia|]. reflexivity.
Qed.

Lemma scan_first (bad : list Question) (x : Question) (rest : list Question) :
  forall i,
    Forall (fun y => validateQuestion y <> []) bad -> validateQuestion x = [] ->
    scan (bad ++ x :: rest) i
    = (map (fun y => Skipping (validateQuestion y)) bad, Some ((i + length bad)%nat, x)).
Proof.
  induction bad as [|y bad IH]; intros i Hbad Hx; cbn [scan app map length].
  - rewrite bool_decide_eq_true_2 by assumption. rewrite Nat.add_0_r. reflexivity.
  - inversion Hbad as [|? ? Hy Hbad']; subst.
    rewrite bool_decide_eq_false_2 by assumption.
    rewrite (IH (S i) Hbad' Hx). cbn [fst snd]. do 2 f_equal. f_equal. lia.
Qed.

Lemma scan_none (bad : list Question) :
  forall i,
    Forall (fun y => validateQuestion y <> []) bad ->
    scan bad i = (map (fun y => Skipping (validateQuestion y)) bad, None).
Proof.
  induction bad as [|y bad IH]; intros i Hbad; cbn [scan map]; [reflexivity|].
  inversion Hbad as [|? ? Hy Hbad']; subst.
  rewrite bool_decide_eq_false_2 by assumption.
  rewrite (IH (S i) Hbad'). reflexivity.
Qed.

Lemma length_drop_le {A} (l qs : list A) (i : nat) :
  drop i l = qs -> (length qs <= length l)%nat.
Proof. intros <-. rewrite length_drop. lia. Qed.

(** X10. Presenting goes past the questions the validator rejects: with
    the session at a run of rejected questions followed by an accepted
    one, the bot sends one skip notice for each rejected question, in
    order, then the accepted question under its own number, and leaves
    the window open on it, the session active and not yet answered. *)
Theorem present_reaches_first_presentable (channelId : string) (r : nat) (w : World)
    (s : Session) (bad : list Question) (x : Question) (rest : list Question) (fuel : nat) :
  heap w !! r = Some s ->
  drop (index s) (bank s) = bad ++ x :: rest ->
  Forall (fun y => validateQuestion y <> []) bad ->
  validateQuestion x = [] ->
  (length (bank s) + 2 <= fuel)%nat ->
  settle fetch fuel (PresentQuestion channelId r) w
  = Some (with_session r (open_session (index s + length bad) s) w,
          map (fun y => Skipping (validateQuestion y)) bad
          ++ [Ask (index s + length bad) (length (bank s)) x]).
Proof.
  intros Hr Hd Hbad Hx Hfuel.
  rewrite (settle_present channelId r (bad ++ x :: rest) (index s) fuel w s Hr eq_refl Hd).
  - rewrite (scan_first bad x rest (index s) Hbad Hx). reflexivity.
  - destruct bad; discriminate.
  - apply length_drop_le in Hd. lia.
Qed.

(** X11. When every question from the current one to the end of the bank
    is rejected, presenting sends one skip notice for each, then the
    scoreboard; the session is left inactive with its index at the end of
    the bank, and the channel is free again. *)
Theorem present_all_rejected_ends (channelId : string) (r : nat) (w : World)
    (s : Session) (bad : list Question) (fuel : nat) :
  heap w !! r = Some s ->
  drop (index s) (bank s) = bad -> bad <> [] ->
  Forall (fun y => validateQuestion y <> []) bad ->
  (length (bank s) + 2 <= fuel)%nat ->
  settle fetch fuel (PresentQuestion channelId r) w
  = Some (set_sessions (delete channelId (sessions w)) (with_session r (ended_session s) w),
          map (fun y => Skipping (validateQuestion y)) bad
          ++ [Board (showScoreboard fetch (Some (ended_session s)))]).
Proof.
  intros Hr Hd Hne Hbad Hfuel.
  rewrite (settle_present channelId r bad (index s) fuel w s Hr eq_refl Hd Hne).
  - rewrite (scan_none bad (index s) Hbad). reflexivity.
  - apply length_drop_le in Hd. lia.
Qed.


(** *** A collector ends once *)

Lemma collector_ended (channelId : string) (r : nat) (w : World) (s : Session)
    (c : Collector) (reason : Reason) :
  heap w !! r = Some s -> collector s = Some c -> ended c = true ->
  collector_stop fetch channelId r reason w = mkRun w [] None.
Proof. intros Hr Hc He. unfold collector_stop. rewrite Hr, Hc, He. reflexivity. Qed.



(** *** Stopping while a notice is on its way *)

(** X13. A stop that arrives while the time-up notice of a window is still
    being sent does not stop the quiz.  The window has ended, so the stop
    has no collector left to end: it answers that the quiz stopped and
    frees the channel.  The handler of the window then goes on with the
    session object it holds: it sends the next question and opens a window
    on it, in a channel that has no session any more. *)
Theorem stop_during_time_up_notice (channelId : string) (r : nat) (w : World)
    (s : Session) (c : Collector) (x : Question) :
  sessions w !! channelId = Some r -> heap w !! r = Some s ->
  active s = true -> collector s = Some c -> ended c = false ->
  bank s !! S (index s) = Some x -> validateQuestion x = [] ->
  let timed := collector_stop fetch channelId r Time w in
  let stopped := stop fetch channelId (world timed) in
  sent timed = [TimeUp] /\ next timed = Some (Advance channelId r) /\
  sent stopped = [QuizStopped] /\ next stopped = None /\
  session_at channelId (world stopped) = None /\
  exists w',
    settle fetch 2 (Advance channelId r) (world stopped)
    = Some (w', [Ask (S (index s)) (length (bank s)) x]) /\
    session_at channelId w' = None /\
    heap w' !! r = Some (open_session (S (index s)) s).
Proof.
  intros Hch Hr Ha Hc He Hx Hv. cbn zeta.
  set (s1 := set_collector (Some (mkCollector true (Some Time))) s).
  assert (Ht : collector_stop fetch channelId r Time w
               = mkRun (with_session r s1 w) [TimeUp] (Some (Advance channelId r))).
  { unfold collector_stop. rewrite Hr, Hc, He. rewrite (update_at _ _ _ _ Hr). reflexivity. }
  rewrite Ht. cbn [world sent next].
  assert (Hr1 : heap (with_session r s1 w) !! r = Some s1)
    by apply (heap_with_session _ _ _ _ Hr).
  assert (Hs : stop fetch channelId (with_session r s1 w)
               = mkRun (set_sessions (delete channelId (sessions w)) (with_session r s1 w))
                   [QuizStopped] None).
  { unfold stop, session_at. cbn [sessions with_session set_heap]. rewrite Hch.
    cbn [mbind option_bind]. fold (with_session r s1 w). rewrite Hr1.
    cbn [active s1 set_collector]. rewrite Ha. cbn [negb].
    rewrite (collector_ended channelId r _ s1 (mkCollector true (Some Time)) ManualStop Hr1
               eq_refl eq_refl).
    reflexivity. }
  rewrite Hs. cbn [world sent next].
  split; [reflexivity|]. split; [reflexivity|]. split; [reflexivity|]. split; [reflexivity|].
  split.
  { unfold session_at. cbn [sessions set_sessions]. rewrite lookup_delete_eq. reflexivity. }
  set (w2 := set_sessions (delete channelId (sessions w)) (with_session r s1 w)).
  assert (Hr2 : heap w2 !! r = Some s1) by exact Hr1.
  set (s2 := set_index (S (index s)) s1).
  assert (Hlt : (S (index s) < length (bank s))%nat) by (eapply lookup_lt_Some, Hx).
  exists (with_session r (open_session (S (index s)) s) w2).
  split; [|split].
  - cbn [settle resume]. unfold advance.
    rewrite (update_at r (fun s0 => set_index (S (index s0)) s0) w2 s1 Hr2).
    rewrite (heap_with_session _ _ _ _ Hr2). cbn [index bank set_index s1 set_collector].
    destruct (Nat.ltb_spec (S (index s)) (length (bank s))) as [_|Hge]; [|lia].
    unfold presentQuestion. rewrite (heap_with_session _ _ _ _ Hr2).
    cbn [index bank set_index s1 set_collector]. rewrite Hx.
    rewrite bool_decide_eq_true_2 by assumption.
    cbn [next world sent resume]. unfold openWindow.
    rewrite (update_at _ _ _ _ (heap_with_session _ _ _ _ Hr2)), with_session_twice.
    reflexivity.
  - unfold session_at. cbn [sessions with_session set_heap w2 set_sessions].
    rewrite lookup_delete_eq. reflexivity.
  - apply (heap_with_session _ _ _ _ Hr2).
Qed.

(** *** The end of a window *)

Lemma settle_advance (channelId : string) (r : nat) (w : World) (s : Session)
    (qs : list Question) (fuel : nat) :
  heap w !! r = Some s -> (index s < length (bank s))%nat ->
  drop (S (index s)) (bank s) = qs -> (length qs + 2 <= fuel)%nat ->
  settle fetch fuel (Advance channelId r) w
  = Some (match (scan qs (S (index s))).2 with
          | Some (j, x) =>
              (with_session r (open_session j s) w,
               (scan qs (S (index s))).1 ++ [Ask j (length (bank s)) x])
          | None =>
              (set_sessions (delete channelId (sessions w))
                 (with_session r (ended_session s) w),
               (scan qs (S (index s))).1
               ++ [Board (showScoreboard fetch (Some (ended_session s)))])
          end).
Proof.
  intros Hr Hi Hd Hfuel.
  set (s1 := set_index (S (index s)) s).
  assert (Hw1 : update r (fun s0 => set_index (S (index s0)) s0) w = with_session r s1 w)
    by exact (update_at r (fun s0 => set_index (S (index s0)) s0) w s Hr).
  assert (Hr1 : heap (with_session r s1 w) !! r = Some s1)
    by apply (heap_with_session _ _ _ _ Hr).
  assert (Hlen : length qs = (length (bank s) - S (index s))%nat)
    by (rewrite <- Hd; apply length_drop).
  destruct fuel as [|fuel]; [lia|].
  destruct (Nat.ltb_spec (S (index s)) (length (bank s))) as [Hlt|Hge].
  - assert (Hstep : settle fetch (S fuel) (Advance channelId r) w
                    = settle fetch (S fuel) (PresentQuestion channelId r) (with_session r s1 w)).
    { cbn [settle resume]. unfold advance. rewrite Hw1, Hr1. cbn [index bank s1 set_index].
      destruct (Nat.ltb_spec (S (index s)) (length (bank s))); [reflexivity | lia]. }
    rewrite Hstep.
    rewrite (settle_present channelId r qs (S (index s)) (S fuel) (with_session r s1 w) s1
               Hr1 eq_refl Hd) by (try lia; intros ->; simpl in Hlen; lia).
    cbn [bank s1 set_index].
    destruct (scan qs (S (index s))).2 as [[j x]|]; rewrite with_session_twice; reflexivity.
  - destruct qs as [|y qs]; [|simpl in Hlen; lia].
    cbn [settle resume]. unfold advance. rewrite Hw1, Hr1. cbn [index bank s1 set_index].
    destruct (Nat.ltb_spec (S (index s)) (length (bank s))); [lia|].
    unfold finish. rewrite (update_at _ _ _ _ Hr1), with_session_twice.
    rewrite (heap_with_session _ _ _ _ Hr).
    assert (He : set_active false s1 = ended_session s).
    { unfold ended_session, s1, set_active, set_index. cbn. f_equal. lia. }
    rewrite He. cbn [next world sent scan fst snd app].
    destruct fuel; [simpl in Hfuel; lia|]. reflexivity.
Qed.

Lemma settle_S (fuel : nat) (t : Task) (w : World) :
  settle fetch (S fuel) t w
  = match next (resume fetch t w) with
    | None => Some (world (resume fetch t w), sent (resume fetch t w))
    | Some t' =>
        match settle fetch fuel t' (world (resume fetch t w)) with
        | Some (w', msgs) => Some (w', sent (resume fetch t w) ++ msgs)
        | None => None
        end
    end.
Proof. reflexivity. Qed.

Lemma settle_end_window (channelId : string) (r : nat) (w : World) (s : Session)
    (c : Collector) (reason : Reason) (qs : list Question) (fuel : nat) :
  heap w !! r = Some s -> (index s < length (bank s))%nat ->
  collector s = Some c -> ended c = false -> reason <> ManualStop ->
  (length (bank s) + 3 <= fuel)%nat ->
  drop (S (index s)) (bank s) = qs ->
  let s1 := set_collector (Some (mkCollector true (Some reason))) s in
  settle fetch fuel (EndWindow channelId r reason) w
  = Some (match (scan qs (S (index s))).2 with
          | Some (j, x) =>
              (with_session r (open_session j s) w,
               end_notice reason ++ (scan qs (S (index s))).1
               ++ [Ask j (length (bank s)) x])
          | None =>
              (set_sessions (delete channelId (sessions w))
                 (with_session r (ended_session s1) w),
               end_notice reason ++ (scan qs (S (index s))).1
               ++ [Board (showScoreboard fetch (Some (ended_session s1)))])
          end).
Proof.
  intros Hr Hi Hc He Hreason Hfuel Hd s1.
  assert (Hw1 : update r (set_collector (Some (mkCollector true (Some reason)))) w
                = with_session r s1 w)
    by exact (update_at r (set_collector (Some (mkCollector true (Some reason)))) w s Hr).
  assert (Hr1 : heap (with_session r s1 w) !! r = Some s1)
    by apply (heap_with_session _ _ _ _ Hr).
  assert (Hlen : (length qs <= length (bank s))%nat) by (eapply length_drop_le, Hd).
  destruct fuel as [|[|fuel]]; [lia | lia |].
  assert (Hcs : collector_stop fetch channelId r reason w
                = on_end fetch channelId r reason (with_session r s1 w)).
  { unfold collector_stop. rewrite Hr, Hc, He, Hw1. reflexivity. }
  assert (Hres : forall j, open_session j s1 = open_session j s) by reflexivity.
  destruct reason; [| |congruence|].
  - rewrite settle_S.
    replace (resume fetch (EndWindow channelId r Answered) w)
      with (resume fetch (Advance channelId r) (with_session r s1 w))
      by (cbn [resume]; rewrite Hcs; reflexivity).
    rewrite <- settle_S.
    rewrite (settle_advance channelId r (with_session r s1 w) s1 qs (S (S fuel)) Hr1 Hi Hd)
      by lia.
    cbn [bank index s1 set_collector end_notice app].
    destruct (scan qs (S (index s))).2 as [[j x]|]; rewrite with_session_twice; reflexivity.
  - rewrite settle_S. cbn [resume]. rewrite Hcs. cbn [on_end next world sent].
    rewrite (settle_advance channelId r (with_session r s1 w) s1 qs (S fuel) Hr1 Hi Hd)
      by lia.
    cbn [bank index s1 set_collector end_notice app].
    destruct (scan qs (S (index s))).2 as [[j x]|]; rewrite with_session_twice; reflexivity.
  - rewrite settle_S. cbn [resume]. rewrite Hcs. cbn [on_end next world sent].
    rewrite (settle_advance channelId r (with_session r s1 w) s1 qs (S fuel) Hr1 Hi Hd)
      by lia.
    cbn [bank index s1 set_collector end_notice app].
    destruct (scan qs (S (index s))).2 as [[j x]|]; rewrite with_session_twice; reflexivity.
Qed.

(** X22. When a window ends because it was answered, the bot moves on at
    once; when it ends for the time or an error, it first says that the
    time is up.  Then the index goes past the current question and past
    every question the validator rejects, with a skip notice for each:
    the next accepted question is sent and gets a window, or, when none
    is left, the scoreboard is sent, the session is left inactive and the
    channel is free again. *)
Theorem window_end_moves_on (channelId : string) (r : nat) (w : World) (s : Session)
    (c : Collector) (reason : Reason) (bad : list Question) (fuel : nat) :
  heap w !! r = Some s -> (index s < length (bank s))%nat ->
  collector s = Some c -> ended c = false -> reason <> ManualStop ->
  Forall (fun y => validateQuestion y <> []) bad ->
  (length (bank s) + 3 <= fuel)%nat ->
  let s1 := set_collector (Some (mkCollector true (Some reason))) s in
  let skips := map (fun y => Skipping (validateQuestion y)) bad in
  (forall x rest,
      drop (S (index s)) (bank s) = bad ++ x :: rest -> validateQuestion x = [] ->
      settle fetch fuel (EndWindow channelId r reason) w
      = Some (with_session r (open_session (S (index s) + length bad) s) w,
              end_notice reason ++ skips
              ++ [Ask (S (index s) + length bad) (length (bank s)) x])) /\
  (drop (S (index s)) (bank s) = bad ->
   settle fetch fuel (EndWindow channelId r reason) w
   = Some (set_sessions (delete channelId (sessions w))
             (with_session r (ended_session s1) w),
           end_notice reason ++ skips
           ++ [Board (showScoreboard fetch (Some (ended_session s1)))])).
Proof.
  intros Hr Hi Hc He Hreason Hbad Hfuel s1 skips. split.
  - intros x rest Hd Hx.
    rewrite (settle_end_window channelId r w s c reason _ fuel Hr Hi Hc He Hreason Hfuel Hd).
    rewrite (scan_first bad x rest (S (index s)) Hbad Hx). reflexivity.
  - intros Hd.
    rewrite (settle_end_window channelId r w s c reason _ fuel Hr Hi Hc He Hreason Hfuel Hd).
    rewrite (scan_none bad (S (index s)) Hbad). reflexivity.
Qed.

(** *** From a press to the next question *)


End FlowFacts.

(** ** The banks of a guild and its last used bank *)

Section RegistryFacts.
Import Quiz Flow Persist.
Local Open Scope list_scope.

Lemma registry_frame (w w' : World) :
  banks w' = banks w -> lastBank w' = lastBank w -> registry_ok w -> registry_ok w'.
Proof. unfold registry_ok. intros -> ->. auto. Qed.

Lemma SAMPLE_BANK_nonempty : SAMPLE_BANK <> [].
Proof. discriminate. Qed.

Lemma registry_ensure (guildId : string) (w : World) :
  registry_ok w -> registry_ok (ensureGuildBank guildId w).
Proof.
  intros H. unfold ensureGuildBank. destruct (banks w !! guildId) eqn:Hb; [exact H|].
  intros g map. cbn [banks lastBank].
  destruct (decide (guildId = g)) as [<-|Hne].
  - rewrite !lookup_insert_eq. intros [= <-]. split.
    + exists "sample", SAMPLE_BANK. split; [reflexivity|]. split; [discriminate|].
      apply lookup_singleton_eq.
    + intros name bank [_ <-]%lookup_singleton_Some. apply SAMPLE_BANK_nonempty.
  - rewrite !lookup_insert_ne by assumption. apply H.
Qed.

Lemma ensure_has_banks (guildId : string) (w : World) :
  exists map, banks (ensureGuildBank guildId w) !! guildId = Some map.
Proof.
  unfold ensureGuildBank. destruct (banks w !! guildId) eqn:Hb; [eauto|].
  cbn [banks]. rewrite lookup_insert_eq. eauto.
Qed.

(** A bank stored under a name that becomes the last used one. *)
Lemma registry_store (w : World) (guildId name : string) (map : gmap string (list Question))
    (items : list Question) (h : list Session) (ss : gmap string nat) :
  registry_ok w -> name <> "" -> items <> [] ->
  (forall name' bank, map !! name' = Some bank -> bank <> []) ->
  registry_ok (mkWorld h ss (<[guildId := <[name := items]> map]> (banks w))
                 (<[guildId := name]> (lastBank w))).
Proof.
  intros H Hn Hi Hm g map'. cbn [banks lastBank].
  destruct (decide (guildId = g)) as [<-|Hne].
  - rewrite !lookup_insert_eq. intros [= <-]. split.
    + exists name, items. split; [reflexivity|]. split; [assumption|].
      apply lookup_insert_eq.
    + intros name' bank [[_ <-]|[_ Hb]]%lookup_insert_Some; [assumption|].
      eapply Hm, Hb.
  - rewrite !lookup_insert_ne by assumption. apply H.
Qed.

(** A bank stored while the last used one stays. *)
Lemma registry_store_keep (w : World) (guildId name : string)
    (map : gmap string (list Question)) (items : list Question) (h : list Session)
    (ss : gmap string nat) :
  registry_ok w -> banks w !! guildId = Some map -> items <> [] ->
  registry_ok (mkWorld h ss (<[guildId := <[name := items]> map]> (banks w)) (lastBank w)).
Proof.
  intros H Hb Hi g map'. cbn [banks lastBank].
  destruct (decide (guildId = g)) as [<-|Hne].
  - rewrite lookup_insert_eq. intros [= <-].
    destruct (H guildId map Hb) as [(last & bank & Hl & Hne & Hin) Hm]. split.
    + destruct (decide (name = last)) as [->|Hd].
      * exists last, items. rewrite lookup_insert_eq. auto.
      * exists last, bank. rewrite lookup_insert_ne by assumption. auto.
    + intros name' bank' [[_ <-]|[_ Hb']]%lookup_insert_Some; [assumption|].
      eapply Hm, Hb'.
  - rewrite lookup_insert_ne by assumption. apply H.
Qed.

(** One of the banks of a guild becomes its last used one. *)
Lemma registry_choose (w : World) (guildId name : string)
    (map : gmap string (list Question)) (bank : list Question) (h : list Session)
    (ss : gmap string nat) :
  registry_ok w -> banks w !! guildId = Some map -> map !! name = Some bank -> name <> "" ->
  registry_ok (mkWorld h ss (banks w) (<[guildId := name]> (lastBank w))).
Proof.
  intros H Hb Hin Hn g map'. cbn [banks lastBank].
  destruct (decide (guildId = g)) as [<-|Hne].
  - rewrite lookup_insert_eq. rewrite Hb. intros [= <-]. split.
    + exists name, bank. auto.
    + apply (H guildId map Hb).
  - rewrite lookup_insert_ne by assumption. apply H.
Qed.

Lemma registry_import (isAdmin : bool) (guildId name : string) (fetched : Js.Outcome string)
    (w : World) :
  registry_ok w -> name <> "" ->
  registry_ok (world (import isAdmin guildId name fetched w)).
Proof.
  intros H Hn. unfold import.
  destruct isAdmin; cbn [negb]; [|exact H].
  destruct fetched as [text|message]; [|exact H].
  destruct (Csv.parseCsvSmart text) as [res|message]; [|exact H].
  case_bool_decide as Hi; [exact H|].
  destruct (banks w !! guildId) as [map|] eqn:Hb; [|exact H].
  cbn [world]. apply registry_store; auto. apply (H guildId map Hb).
Qed.

Lemma body_name_nonempty (s name : string) : body_name s = Some name -> name <> "".
Proof.
  destruct s as [|c s']; cbn [body_name]; [discriminate|].
  destruct (is_line_end c); [discriminate|].
  destruct (String.eqb _ _); [intros [= <-]; discriminate|].
  destruct (body_name s'); cbn; [intros [= <-]; discriminate | discriminate].
Qed.

Lemma match_bank_file_name (f guildId name : string) :
  match_bank_file f = Some (guildId, name) -> name <> "".
Proof.
  unfold match_bank_file. destruct (Js.truthy _); [|discriminate].
  destruct (span_digits f).2 as [|c1 [|c2 body]]; try discriminate.
  destruct (_ && _); [|discriminate].
  destruct (body_name body) eqn:Hb; cbn; [|discriminate].
  intros [= _ <-]. eapply body_name_nonempty, Hb.
Qed.

Lemma registry_load_file (f : string) (read : FileRead) (w w' : World) :
  registry_ok w -> load_file f read w = Some w' -> registry_ok w'.
Proof.
  intros H. unfold load_file.
  destruct (match_bank_file f) as [[guildId name]|] eqn:Hf; [|intros [= <-]; exact H].
  destruct read as [| | |[|x items]]; try (intros [= <-]; exact H); try discriminate.
  pose proof (registry_ensure guildId w H) as He.
  destruct (ensure_has_banks guildId w) as [map Hb].
  revert He Hb. generalize (ensureGuildBank guildId w). intros w1 He Hb.
  rewrite Hb. destruct (He guildId map Hb) as [(last & bank & Hl & Hne & Hin) Hm].
  rewrite Hl. intros [= <-].
  destruct (Js.truthy last).
  - apply registry_store_keep; [assumption.. | discriminate].
  - apply registry_store; [assumption | | discriminate | assumption].
    eapply match_bank_file_name, Hf.
Qed.

Lemma registry_load (files : list (string * FileRead)) :
  forall w, registry_ok w -> registry_ok (loadAllBanksFromDisk files w).
Proof.
  induction files as [|[f read] files IH]; intros w H; cbn [loadAllBanksFromDisk]; [exact H|].
  destruct (load_file f read w) as [w'|] eqn:Hl; [|exact H].
  apply IH. eapply registry_load_file; eassumption.
Qed.

Lemma registry_actuallyStart (channelId : string) (bankArr : list Question)
    (desiredCount : option Z) (shuffled : list Question) (w : World) :
  registry_ok w -> registry_ok (world (actuallyStart channelId bankArr desiredCount shuffled w)).
Proof.
  intros H. unfold actuallyStart.
  case_bool_decide; [exact H|]. case_bool_decide; [exact H|].
  cbn [world]. revert H. apply registry_frame; reflexivity.
Qed.


(** What [/quiz start] comes to in a state that keeps the registry: the
    last used bank is there to fall back on. *)
Lemma quiz_start_registry (shuffle : list Question -> list Question)
    (guildId channelId : string) (requested : option string) (desiredCount : option Z)
    (w : World) :
  registry_ok w ->
  let w1 := ensureGuildBank guildId w in
  exists map last bank,
    banks w1 !! guildId = Some map /\ lastBank w1 !! guildId = Some last /\ last <> "" /\
    map !! last = Some bank /\
    quiz_start shuffle guildId channelId requested desiredCount w
    = let chosen := if truthy_opt requested then default "" requested else last in
      match map !! chosen with
      | None => BankNotFound requested w1
      | Some bank' =>
          Begun (actuallyStart channelId bank' desiredCount (shuffle bank')
                   (mkWorld (heap w1) (sessions w1) (banks w1)
                      (<[guildId := chosen]> (lastBank w1))))
      end.
Proof.
  intros H w1. pose proof (registry_ensure guildId w H) as H1. fold w1 in H1.
  destruct (ensure_has_banks guildId w) as [map Hb]. fold w1 in Hb.
  destruct (H1 guildId map Hb) as [(last & bank & Hl & Hne & Hin) Hm].
  exists map, last, bank. repeat (split; [assumption|]).
  unfold quiz_start. fold w1. rewrite Hb, Hl. cbn zeta.
  assert (Ht : Js.truthy last = true) by (apply truthy_iff, Hne).
  destruct requested as [name|]; [destruct (Js.truthy name) eqn:Hn|];
    repeat (cbn [truthy_opt negb andb mbind option_bind default from_option id];
            rewrite ?Hn, ?Ht, ?Hin); reflexivity.
Qed.

Lemma registry_quiz_start (shuffle : list Question -> list Question)
    (guildId channelId : string) (requested : option string) (desiredCount : option Z)
    (w : World) :
  registry_ok w ->
  registry_ok (after_start (quiz_start shuffle guildId channelId requested desiredCount w)).
Proof.
  intros H.
  destruct (quiz_start_registry shuffle guildId channelId requested desiredCount w H)
    as (map & last & bank & Hb & Hl & Hne & Hin & ->).
  pose proof (registry_ensure guildId w H) as H1. cbn zeta.
  set (chosen := if truthy_opt requested then default "" requested else last).
  assert (Hn : chosen <> "").
  { unfold chosen. destruct requested as [name|]; cbn [truthy_opt default]; [|exact Hne].
    destruct (Js.truthy name) eqn:Hn; [apply truthy_iff, Hn | exact Hne]. }
  destruct (map !! chosen) as [bank'|] eqn:Hc; cbn [after_start]; [|exact H1].
  apply registry_actuallyStart.
  eapply registry_choose; [exact H1 | exact Hb | exact Hc | exact Hn].
Qed.

Lemma resume_registry (fetch : string -> option string) (t : Task) (w : World) :
  banks (world (resume fetch t w)) = banks w /\
  lastBank (world (resume fetch t w)) = lastBank w.
Proof.
  assert (Hu : forall r f w0, banks (update r f w0) = banks w0 /\
                              lastBank (update r f w0) = lastBank w0).
  { intros r f w0. unfold update. destruct (heap w0 !! r); split; reflexivity. }
  assert (Hp : forall c r w0, banks (world (presentQuestion c r w0)) = banks w0 /\
                              lastBank (world (presentQuestion c r w0)) = lastBank w0).
  { intros c r w0. rewrite presentQuestion_world. split; reflexivity. }
  assert (Ha : forall c r w0, banks (world (advance fetch c r w0)) = banks w0 /\
                              lastBank (world (advance fetch c r w0)) = lastBank w0).
  { intros c r w0. unfold advance.
    destruct (Hu r (fun s => set_index (S (index s)) s) w0) as [E1 E2].
    destruct (heap (update r _ w0) !! r) as [s|]; [|split; assumption].
    destruct (_ <? _)%nat.
    - rewrite presentQuestion_world. split; assumption.
    - unfold finish. cbn [world].
      destruct (Hu r (set_active false) (update r (fun s => set_index (S (index s)) s) w0))
        as [E3 E4].
      rewrite E3, E4. split; assumption. }
  destruct t as [c r|c r|c r|c r|c|c r reason]; cbn [resume]; auto.
  - unfold openWindow. cbn [world]. apply Hu.
  - unfold collector_stop. destruct (heap w !! r) as [s|]; [|split; reflexivity].
    destruct (collector s) as [k|]; [|split; reflexivity].
    destruct (ended k); [split; reflexivity|].
    destruct (Hu r (set_collector (Some (mkCollector true (Some reason)))) w) as [E1 E2].
    destruct reason; cbn [on_end world]; try (split; assumption).
    destruct (Ha c r (update r (set_collector (Some (mkCollector true (Some Answered)))) w))
      as [E3 E4].
    rewrite E3, E4. split; assumption.
Qed.

Lemma registry_fresh : registry_ok fresh_world.
Proof. intros g map H. cbn in H. rewrite lookup_empty in H. discriminate. Qed.

(** X14. Every guild with banks has a last used bank that is one of its
    banks and has a name, and no bank of it is empty: what holds when the
    process starts keeps holding through the seeding of a guild, an
    import under a name that is not empty, the loading of the bank files,
    a start, and every step of a running quiz. *)
Theorem registry_kept (fetch : string -> option string)
    (shuffle : list Question -> list Question) (isAdmin : bool)
    (guildId channelId name : string) (fetched : Js.Outcome string)
    (files : list (string * FileRead)) (requested : option string)
    (desiredCount : option Z) (t : Task) (w : World) :
  registry_ok w ->
  registry_ok (ensureGuildBank guildId w) /\
  (name <> "" -> registry_ok (world (import isAdmin guildId name fetched w))) /\
  registry_ok (loadAllBanksFromDisk files w) /\
  registry_ok (after_start (quiz_start shuffle guildId channelId requested desiredCount w)) /\
  registry_ok (world (resume fetch t w)).
Proof.
  intros H. split; [|split; [|split; [|split]]].
  - apply registry_ensure, H.
  - intros Hn. apply registry_import; assumption.
  - apply registry_load, H.
  - apply registry_quiz_start, H.
  - destruct (resume_registry fetch t w) as [E1 E2].
    revert H. apply registry_frame; assumption.
Qed.

(** X15. In such a state a start never asks for a bank and never finds
    the chosen bank empty.  With no bank named it starts the last used
    bank; with a bank named it starts that bank and makes it the last
    used one, or, when the guild has no bank of that name, reports it as
    not found and leaves the state as the seeding left it. *)
Theorem start_chooses_bank (shuffle : list Question -> list Question)
    (guildId channelId : string) (requested : option string) (desiredCount : option Z)
    (w : World) :
  registry_ok w ->
  let w1 := ensureGuildBank guildId w in
  let st := quiz_start shuffle guildId channelId requested desiredCount w in
  (forall w', st <> AskBank w') /\
  (forall name w', st = BankNotFound name w' ->
     truthy_opt requested = true /\ name = requested /\ w' = w1 /\
     forall map, banks w1 !! guildId = Some map -> requested ≫= (map !!.) = None) /\
  (forall run, st = Begun run ->
     sent run <> [EmptyBank] /\
     exists map chosen bank,
       banks w1 !! guildId = Some map /\ map !! chosen = Some bank /\
       (if truthy_opt requested then requested = Some chosen
        else lastBank w1 !! guildId = Some chosen) /\
       lastBank (world run) !! guildId = Some chosen /\
       run = actuallyStart channelId bank desiredCount (shuffle bank)
               (mkWorld (heap w1) (sessions w1) (banks w1)
                  (<[guildId := chosen]> (lastBank w1)))).
Proof.
  intros H w1 st.
  destruct (quiz_start_registry shuffle guildId channelId requested desiredCount w H)
    as (map & last & bank & Hb & Hl & Hne & Hin & Hst).
  fold w1 in Hb, Hl, Hst. fold st in Hst. cbn zeta in Hst.
  pose proof (registry_ensure guildId w H) as H1. fold w1 in H1.
  destruct (H1 guildId map Hb) as [_ Hm].
  set (chosen := if truthy_opt requested then default "" requested else last) in Hst.
  assert (Hreq : if truthy_opt requested then requested = Some chosen
                 else lastBank w1 !! guildId = Some chosen).
  { unfold chosen. destruct requested as [name|]; cbn [truthy_opt default]; [|exact Hl].
    destruct (Js.truthy name); [reflexivity | exact Hl]. }
  destruct (map !! chosen) as [bank'|] eqn:Hc; rewrite Hst.
  - split; [discriminate|]. split; [discriminate|].
    intros run [= <-]. split.
    + unfold actuallyStart. rewrite bool_decide_eq_false_2 by (eapply Hm, Hc).
      case_bool_decide; discriminate.
    + exists map, chosen, bank'. repeat (split; [assumption|]). split; [|reflexivity].
      unfold actuallyStart. rewrite bool_decide_eq_false_2 by (eapply Hm, Hc).
      case_bool_decide; cbn [world lastBank set_sessions set_heap];
        apply lookup_insert_eq.
  - split; [discriminate|]. split; [|discriminate].
    intros name w' [= <- <-].
    destruct (truthy_opt requested) eqn:Ht.
    + split; [reflexivity|]. split; [reflexivity|]. split; [reflexivity|].
      intros map' Hb'. rewrite Hb in Hb'. injection Hb' as <-.
      rewrite Hreq. exact Hc.
    + unfold chosen in Hc. rewrite ?Ht in Hc. cbn iota in Hc. congruence.
Qed.

(** X16. A start in a channel whose quiz is still in the store is refused
    and starts nothing: no session is made and none is changed.  Yet the
    bank it named, when the guild has it, has become the last used one. *)
Theorem start_refused_while_running (shuffle : list Question -> list Question)
    (guildId channelId : string) (requested : option string) (desiredCount : option Z)
    (w : World) (r : nat) (run : Run) :
  registry_ok w -> sessions w !! channelId = Some r ->
  quiz_start shuffle guildId channelId requested desiredCount w = Begun run ->
  sent run = [AlreadyRunning] /\ next run = None /\
  heap (world run) = heap w /\ sessions (world run) = sessions w /\
  banks (world run) = banks (ensureGuildBank guildId w) /\
  (if truthy_opt requested then lastBank (world run) !! guildId = requested
   else world run = ensureGuildBank guildId w).
Proof.
  intros H Hs.
  destruct (quiz_start_registry shuffle guildId channelId requested desiredCount w H)
    as (map & last & bank & Hb & Hl & Hne & Hin & ->).
  pose proof (registry_ensure guildId w H) as H1.
  destruct (H1 guildId map Hb) as [_ Hm].
  assert (Hh : heap (ensureGuildBank guildId w) = heap w /\
               sessions (ensureGuildBank guildId w) = sessions w).
  { unfold ensureGuildBank. destruct (banks w !! guildId); split; reflexivity. }
  destruct Hh as [Hh1 Hh2]. cbn zeta.
  set (chosen := if truthy_opt requested then default "" requested else last).
  destruct (map !! chosen) as [bank'|] eqn:Hc; [|discriminate].
  intros [= <-]. unfold actuallyStart.
  rewrite bool_decide_eq_false_2 by (eapply Hm, Hc).
  rewrite bool_decide_eq_true_2 by (cbn [sessions]; rewrite Hh2, Hs; discriminate).
  cbn [sent next world heap sessions banks lastBank].
  repeat (split; [auto|]).
  unfold chosen. destruct requested as [name|]; cbn [truthy_opt default].
  - destruct (Js.truthy name).
    + apply lookup_insert_eq.
    + rewrite (insert_id _ _ _ Hl). destruct (ensureGuildBank guildId w); reflexivity.
  - rewrite (insert_id _ _ _ Hl). destruct (ensureGuildBank guildId w); reflexivity.
Qed.

(** *** Loading the bank files *)








(** X19. A bank file that cannot be parsed ends the load: the files after
    it are not read.  Files with other names, files without contents,
    values that are no array and empty arrays are passed over and change
    nothing. *)
Theorem load_stops_at_broken_file (pre post : list (string * FileRead)) (f : string)
    (w : World) :
  match_bank_file f <> None ->
  Forall (fun p => match_bank_file p.1 = None \/ p.2 <> Broken) pre ->
  loadAllBanksFromDisk (pre ++ (f, Broken) :: post) w = loadAllBanksFromDisk pre w /\
  (Forall (fun p => match_bank_file p.1 = None \/ p.2 = Unreadable \/ p.2 = NotArray \/
                    p.2 = Items []) pre ->
   loadAllBanksFromDisk (pre ++ (f, Broken) :: post) w = w).
Proof.
  intros Hf. revert w. induction pre as [|[f' read] pre IH]; intros w Hpre.
  - cbn [app loadAllBanksFromDisk]. unfold load_file.
    destruct (match_bank_file f) as [[g n]|]; [|congruence]. auto.
  - inversion Hpre as [|? ? Hp Hpre']; subst. cbn [fst snd] in Hp.
    cbn [app loadAllBanksFromDisk].
    destruct (load_file f' read w) as [w'|] eqn:Hl.
    + destruct (IH w' Hpre') as [E1 E2]. split; [exact E1|].
      intros Hskip. inversion Hskip as [|? ? Hs Hskip']; subst. cbn [fst snd] in Hs.
      rewrite (E2 Hskip'). revert Hl. unfold load_file.
      destruct (match_bank_file f') as [[g n]|]; [|congruence].
      destruct Hs as [Hs|[Hs|[Hs|Hs]]]; [congruence| | |]; rewrite Hs; congruence.
    + exfalso. revert Hl. unfold load_file.
      destruct (match_bank_file f') as [[g n]|]; [|discriminate].
      destruct Hp as [Hp|Hp]; [discriminate|].
      destruct read as [| | |[|x items]]; congruence.
Qed.

(** *** Import *)



(** *** From the start to the first window *)

Lemma start_count_range (desiredCount : option Z) (len : Z) :
  1 <= len -> 1 <= start_count desiredCount len <= len.
Proof.
  intros H. unfold start_count. destruct (given desiredCount); [|lia].
  destruct desiredCount as [d|]; cbn [default from_option id]; lia.
Qed.

(** X21. A start in a free channel, with a bank that is not empty and a
    shuffled bank that begins with a question the validator accepts,
    announces the number of questions, between 1 and the size of the
    bank, then sends that first question as number 0 of that many and
    opens a window on it.  The session it stores holds the first
    questions of the shuffled bank and an empty scoreboard; every session
    that was there stays as it was. *)
Theorem start_opens_first_window (fetch : string -> option string) (channelId : string)
    (bankArr : list Question) (desiredCount : option Z) (x : Question)
    (rest : list Question) (w : World) (fuel : nat) :
  bankArr <> [] -> sessions w !! channelId = None -> validateQuestion x = [] ->
  (2 <= fuel)%nat ->
  let shuffled := x :: rest in
  let run := actuallyStart channelId bankArr desiredCount shuffled w in
  let count := start_count desiredCount (Z.of_nat (length shuffled)) in
  let selected := take (Z.to_nat count) shuffled in
  1 <= count <= Z.of_nat (length shuffled) /\
  length selected = Z.to_nat count /\ head selected = Some x /\
  sent run = [Starting count] /\
  exists r w',
    next run = Some (PresentQuestion channelId r) /\
    settle fetch fuel (PresentQuestion channelId r) (world run)
    = Some (w', [Ask 0 (Z.to_nat count) x]) /\
    session_at channelId w'
    = Some (mkSession 0 selected true false [] (Some (mkCollector false None))) /\
    (forall r' s', heap w !! r' = Some s' -> heap w' !! r' = Some s') /\
    (forall c, c <> channelId -> sessions w' !! c = sessions w !! c) /\
    banks w' = banks w /\ lastBank w' = lastBank w.
Proof.
  intros Hb Hs Hv Hfuel shuffled run count selected.
  assert (Hc : 1 <= count <= Z.of_nat (length shuffled)).
  { apply start_count_range. unfold shuffled. cbn [length]. lia. }
  assert (Hlen : length selected = Z.to_nat count).
  { unfold selected. rewrite length_take. lia. }
  assert (Hhd : selected = x :: take (Z.to_nat count - 1) rest).
  { unfold selected, shuffled. destruct (Z.to_nat count) as [|n] eqn:Hn; [lia|].
    replace (S n - 1)%nat with n by lia. reflexivity. }
  split; [exact Hc|]. split; [exact Hlen|]. split; [rewrite Hhd; reflexivity|].
  set (session := mkSession 0 selected false false [] None).
  set (r := length (heap w)).
  assert (Hrun : run = mkRun (set_sessions (<[channelId := r]> (sessions w))
                                (set_heap (heap w ++ [session]) w))
                         [Starting count] (Some (PresentQuestion channelId r))).
  { unfold run, actuallyStart.
    rewrite bool_decide_eq_false_2 by assumption.
    rewrite bool_decide_eq_false_2 by (rewrite Hs; intros H; apply H; reflexivity).
    reflexivity. }
  rewrite Hrun. cbn [sent next world]. split; [reflexivity|].
  set (w0 := set_sessions (<[channelId := r]> (sessions w)) (set_heap (heap w ++ [session]) w)).
  assert (Hr : heap w0 !! r = Some session) by (apply list_lookup_middle; reflexivity).
  exists r, (with_session r (open_session 0 session) w0).
  split; [reflexivity|]. split; [|split; [|split; [|split; [|split; reflexivity]]]].
  - destruct fuel as [|[|fuel]]; [lia | lia |].
    cbn [settle resume]. unfold presentQuestion. rewrite Hr.
    cbn [bank index session]. rewrite Hhd. cbn [lookup list_lookup].
    rewrite bool_decide_eq_true_2 by assumption.
    cbn [next world sent resume]. unfold openWindow.
    rewrite (update_at _ _ _ _ Hr). cbn [next world sent app length].
    assert (Hn : S (length (take (Z.to_nat count - 1) rest)) = Z.to_nat count)
      by (pose proof Hlen as Hn; rewrite Hhd in Hn; exact Hn).
    rewrite Hn. reflexivity.
  - unfold session_at. cbn [sessions with_session set_heap w0 set_sessions].
    rewrite lookup_insert_eq. cbn [mbind option_bind].
    fold (with_session r (open_session 0 session) w0).
    rewrite (heap_with_session _ _ _ _ Hr). reflexivity.
  - intros r' s' Hr'. cbn [heap with_session set_heap w0 set_sessions].
    assert (Hlt : (r' < r)%nat) by (eapply lookup_lt_Some, Hr').
    rewrite list_lookup_insert_ne by lia. rewrite lookup_app_l by assumption. exact Hr'.
  - intros c Hc'. cbn [sessions with_session set_heap w0 set_sessions].
    apply lookup_insert_ne. congruence.
Qed.

End RegistryFacts.

(** ** The theorems above at concrete states *)

Section FlowWitnesses.
Import Quiz Flow Persist.
Local Open Scope list_scope.

Lemma present_reaches_first_presentable_witness :
  settle no_names 4 (PresentQuestion "42" 0)
    (one_session (stored [blank_question; sepsis_question]))
  = Some (with_session 0 (open_session 1 (stored [blank_question; sepsis_question]))
            (one_session (stored [blank_question; sepsis_question])),
          [Skipping ["missing prompt"; "needs ≥2 options"; "missing answer(s)"];
           Ask 1 2 sepsis_question]).
Proof.
  apply (present_reaches_first_presentable no_names "42" 0
           (one_session (stored [blank_question; sepsis_question]))
           (stored [blank_question; sepsis_question]) [blank_question] sepsis_question [] 4).
  - reflexivity.
  - reflexivity.
  - repeat constructor. discriminate.
  - reflexivity.
  - simpl. lia.
Defined.

Lemma present_all_rejected_ends_witness :
  settle no_names 3 (PresentQuestion "42" 0) (one_session (stored [blank_question]))
  = Some (set_sessions ∅
            (with_session 0 (ended_session (stored [blank_question]))
               (one_session (stored [blank_question]))),
          [Skipping ["missing prompt"; "needs ≥2 options"; "missing answer(s)"];
           Board NO_SCORES]).
Proof.
  rewrite (present_all_rejected_ends no_names "42" 0 (one_session (stored [blank_question]))
             (stored [blank_question]) [blank_question] 3).
  - reflexivity.
  - reflexivity.
  - reflexivity.
  - discriminate.
  - repeat constructor. discriminate.
  - simpl. lia.
Defined.

Lemma stop_during_time_up_notice_witness :
  let w := one_session (windowed [sepsis_question; sepsis_question]) in
  let timed := collector_stop no_names "42" 0 Time w in
  let stopped := stop no_names "42" (world timed) in
  sent timed = [TimeUp] /\ sent stopped = [QuizStopped] /\
  exists w',
    settle no_names 2 (Advance "42" 0) (world stopped) = Some (w', [Ask 1 2 sepsis_question]) /\
    session_at "42" w' = None.
Proof.
  intros w timed stopped.
  destruct (stop_during_time_up_notice no_names "42" 0 w
              (windowed [sepsis_question; sepsis_question]) (mkCollector false None)
              sepsis_question)
    as (H1 & _ & H2 & _ & _ & w' & H3 & H4 & _); try reflexivity.
  split; [exact H1|]. split; [exact H2|]. exists w'. split; assumption.
Defined.

Lemma window_end_moves_on_witness :
  let w := one_session (windowed [sepsis_question; blank_question; sepsis_question]) in
  settle no_names 6 (EndWindow "42" 0 Time) w
  = Some (with_session 0
            (open_session 2 (windowed [sepsis_question; blank_question; sepsis_question])) w,
          [TimeUp; Skipping ["missing prompt"; "needs ≥2 options"; "missing answer(s)"];
           Ask 2 3 sepsis_question]).
Proof.
  intros w.
  destruct (window_end_moves_on no_names "42" 0 w
              (windowed [sepsis_question; blank_question; sepsis_question])
              (mkCollector false None) Time [blank_question] 6) as [H _].
  - reflexivity.
  - simpl. lia.
  - reflexivity.
  - reflexivity.
  - discriminate.
  - repeat constructor. discriminate.
  - simpl. lia.
  - apply (H sepsis_question []); reflexivity.
Defined.

Lemma registry_kept_witness :
  registry_ok (ensureGuildBank "7" fresh_world) /\
  registry_ok (loadAllBanksFromDisk data_dir fresh_world).
Proof.
  destruct (registry_kept no_names id true "7" "42" "week1" (Js.Thrown "HTTP 404")
              data_dir None None (Release "42") fresh_world registry_fresh)
    as (H1 & _ & H2 & _).
  split; assumption.
Defined.

Lemma start_chooses_bank_witness :
  exists run,
    quiz_start id "7" "42" None None fresh_world = Begun run /\
    sent run <> [EmptyBank] /\ lastBank (world run) !! "7" = Some "sample".
Proof.
  destruct (start_chooses_bank id "7" "42" None None fresh_world registry_fresh)
    as (_ & _ & H).
  eexists. split; [reflexivity|].
  destruct (H _ eq_refl) as (H1 & map & chosen & bank & _ & _ & Hl & Hc & _).
  split; [exact H1|]. cbn [truthy_opt] in Hl. rewrite Hc, <- Hl. reflexivity.
Defined.

Lemma registry_running : registry_ok running_world.
Proof. intros g map H. cbn in H. rewrite lookup_empty in H. discriminate. Qed.

Lemma start_refused_while_running_witness :
  exists run,
    quiz_start id "7" "42" None None running_world = Begun run /\
    sent run = [AlreadyRunning] /\ world run = ensureGuildBank "7" running_world.
Proof.
  eexists. split; [reflexivity|].
  destruct (start_refused_while_running id "7" "42" None None running_world 0 _
              registry_running eq_refl eq_refl) as (H1 & _ & _ & _ & _ & H2).
  split; [exact H1 | exact H2].
Defined.



Lemma load_stops_at_broken_file_witness :
  loadAllBanksFromDisk
    ([("notes.txt", Broken); ("7__empty.json", Items [])]
     ++ ("7__torn.json", Broken) :: [("7__week1.json", Items [sepsis_question])])
    fresh_world
  = fresh_world.
Proof.
  destruct (load_stops_at_broken_file
              [("notes.txt", Broken); ("7__empty.json", Items [])]
              [("7__week1.json", Items [sepsis_question])] "7__torn.json" fresh_world)
    as [_ H].
  - discriminate.
  - constructor; [left; reflexivity|].
    constructor; [right; discriminate | constructor].
  - apply H. constructor; [left; reflexivity|].
    constructor; [cbn [fst snd]; auto | constructor].
Defined.

Lemma start_opens_first_window_witness :
  let run := actuallyStart "42" SAMPLE_BANK (Some 2) SAMPLE_BANK fresh_world in
  sent run = [Starting 2] /\
  exists r w',
    settle no_names 2 (PresentQuestion "42" r) (world run)
    = Some (w', [Ask 0 2 (mkQuestion "Which PPE items are required for contact precautions?"
                            "sata" ["Gloves"; "Gown"; "N95 respirator"; "Eye protection"]
                            [0; 1]
                            "Contact = gloves + gown. N95 is airborne; eye protection is procedure-dependent.")]).
Proof.
  intros run.
  destruct (start_opens_first_window no_names "42" SAMPLE_BANK (Some 2)
              (mkQuestion "Which PPE items are required for contact precautions?"
                 "sata" ["Gloves"; "Gown"; "N95 respirator"; "Eye protection"] [0; 1]
                 "Contact = gloves + gown. N95 is airborne; eye protection is procedure-dependent.")
              (tail SAMPLE_BANK) fresh_world 2)
    as (_ & _ & _ & H1 & r & w' & _ & H2 & _).
  - discriminate.
  - reflexivity.
  - reflexivity.
  - lia.
  - split; [exact H1|]. exists r, w'. exact H2.
Defined.


Lemma buildButtons_grid_witness :
  exists rows,
    Buttons.buildButtons sepsis_question = Some rows /\
    length (concat rows) = 4%nat /\
    concat rows !! 1%nat = Some (Buttons.mkButton "opt_1" "B").
Proof.
  destruct (buildButtons_grid sepsis_question) as (rows & Hrun & _ & Hlen & Hat & _).
  exists rows. split; [exact Hrun|]. split; [exact Hlen|].
  apply (Hat 1%nat "Obtain blood cultures"). reflexivity.
Defined.


End FlowWitnesses.
